(** * Sippy: ingestion store, aggregate catalog and load command

    A shallow embedding of the [db] package (client construction, suite
    seeding, materialized-view catalog), of the [load] command of sippy
    with the constructor of its prow loader, and of the Security Put
    Privileges request of the vendored [esapi] package, together with
    the properties its design document states about them and further
    properties of the code.

    Conventions.  Go strings are byte strings ([string]); Go [int] and
    [int64] values are [Z] (none of the quantities below comes near the
    64-bit range); a Go [error] is [option Error] with [None] for [nil];
    the database behind a [*gorm.DB] handle is an explicit [Postgres]
    state threaded through every call. *)

From Stdlib Require Import ZArith Lia.
From stdpp Require Import gmap strings list fin_maps.

(** ** The fragment of Go's [strings] package used by the code *)

Module GoStrings.

(** [strings.HasPrefix(s, prefix)]. *)
Fixpoint HasPrefix (s prefix : string) {struct prefix} : bool :=
  match prefix with
  | EmptyString => true
  | String a prefix' =>
      match s with
      | EmptyString => false
      | String b s' => if Ascii.eqb a b then HasPrefix s' prefix' else false
      end
  end.

(** [strings.Contains(s, substr)]. *)
Fixpoint Contains (s substr : string) : bool :=
  HasPrefix s substr ||
  match s with
  | EmptyString => false
  | String _ s' => Contains s' substr
  end.

(** A byte that continues a multi-byte UTF-8 sequence (10xxxxxx). *)
Definition continuation (c : Ascii.ascii) : bool :=
  let n := Ascii.nat_of_ascii c in (128 <=? n)%nat && (n <? 192)%nat.

(** [ReplaceAll] with an empty [old]: [new] is inserted before every
    UTF-8 sequence and at the end (valid UTF-8 assumed). *)
Fixpoint insert_at_runes (new s : string) : string :=
  match s with
  | EmptyString => new
  | String c s' =>
      if continuation c then String c (insert_at_runes new s')
      else new +:+ String c (insert_at_runes new s')
  end.

(** The scan of [ReplaceAll] for a non-empty [old]: left to right,
    non-overlapping.  [skip] counts the bytes of the current match
    that are still to be dropped. *)
Fixpoint replace_scan (old new : string) (skip : nat) (s : string) : string :=
  match s with
  | EmptyString => EmptyString
  | String c s' =>
      match skip with
      | S k => replace_scan old new k s'
      | O =>
          if HasPrefix s old
          then new +:+ replace_scan old new (String.length old - 1) s'
          else String c (replace_scan old new 0 s')
      end
  end.

(** [strings.ReplaceAll(s, old, new)]. *)
Definition ReplaceAll (s old new : string) : string :=
  match old with
  | EmptyString => insert_at_runes new s
  | _ => replace_scan old new 0 s
  end.

(** [strings.Count(s, substr)] for a non-empty [substr]:
    non-overlapping occurrences. *)
Fixpoint count_scan (substr : string) (skip : nat) (s : string) : nat :=
  match s with
  | EmptyString => 0
  | String _ s' =>
      match skip with
      | S k => count_scan substr k s'
      | O =>
          if HasPrefix s substr
          then S (count_scan substr (String.length substr - 1) s')
          else count_scan substr 0 s'
      end
  end.

Definition Count (s substr : string) : nat := count_scan substr 0 s.

End GoStrings.

(** ** Go errors

    The error values the code distinguishes or builds.  [ErrOther] is
    any error value with a message ([fmt.Errorf], a driver or network
    failure); [ErrWrapped] is [errors.Wrapf] and [errors.WithMessage]. *)

Inductive Error :=
| ErrRecordNotFound                          (* gorm.ErrRecordNotFound *)
| ErrRelationExists (relation : string)      (* server: relation already exists *)
| ErrUndefinedTable (relation : string)      (* server: relation does not exist *)
| ErrOther (msg : string)
| ErrWrapped (msg : string) (cause : Error).

#[global] Instance Error_eq_dec : EqDecision Error.
Proof. solve_decision. Defined.

(** [errors.Is(err, target)]: [target] occurs on the wrap chain of [err]. *)
Fixpoint errors_Is (err target : Error) : bool :=
  bool_decide (err = target) ||
  match err with
  | ErrWrapped _ cause => errors_Is cause target
  | _ => false
  end.

(** ** Package [models]

    The columns of a [Suite] row that the seeding code reads and
    writes (the declaration of the struct lies outside the files
    embedded here). *)

Module Models.
Record Suite := { ID : Z; Name : string }.
End Models.

(** ** Package [db] *)

Module Db.

Import GoStrings.

Record PostgresMaterializedView := {
  (* Name is the name of the materialized view in postgres. *)
  Name : string;
  (* Definition is the material view definition. *)
  Definition_ : string;
  (* ReplaceStrings is a map of strings we want to replace in the
     create view statement, allowing for re-use.  A nil map is the
     empty map: ranging over it runs no iteration. *)
  ReplaceStrings : gmap string string
}.

Definition testReportMatView : string := "
SELECT 
	tests.name AS name,
	coalesce(count(case when status = 1 AND timestamp BETWEEN |||START||| AND |||BOUNDARY||| then 1 end), 0) AS previous_successes,
    coalesce(count(case when status = 13 AND timestamp BETWEEN |||START||| AND |||BOUNDARY||| then 1 end), 0) AS previous_flakes,
    coalesce(count(case when status = 12 AND timestamp BETWEEN |||START||| AND |||BOUNDARY||| then 1 end), 0) AS previous_failures,
    coalesce(count(case when timestamp BETWEEN |||START||| AND |||BOUNDARY||| then 1 end), 0) as previous_runs,
    coalesce(count(case when status = 1 AND timestamp BETWEEN |||BOUNDARY||| AND |||END||| then 1 end), 0) AS current_successes,
    coalesce(count(case when status = 13 AND timestamp BETWEEN |||BOUNDARY||| AND |||END||| then 1 end), 0) AS current_flakes,
    coalesce(count(case when status = 12 AND timestamp BETWEEN |||BOUNDARY||| AND |||END||| then 1 end), 0) AS current_failures,
    coalesce(count(case when timestamp BETWEEN |||BOUNDARY||| AND |||END||| then 1 end), 0) as current_runs,
    prow_jobs.variants, prow_jobs.release
FROM prow_job_run_tests
    JOIN tests ON tests.id = prow_job_run_tests.test_id
    JOIN prow_job_runs ON prow_job_runs.id = prow_job_run_tests.prow_job_run_id
    JOIN prow_jobs ON prow_job_runs.prow_job_id = prow_jobs.id
GROUP BY tests.name, prow_jobs.variants, prow_jobs.release
".

Definition testAnalysisByVariantMatView : string := "
SELECT 
       tests.id AS test_id,
       tests.name AS test_name,
       date(prow_job_runs.timestamp) AS date,
       unnest(prow_jobs.variants) AS variant, 
       prow_jobs.release AS release,
       coalesce(count(case when timestamp BETWEEN NOW() - INTERVAL '14 DAY' AND NOW() then 1 end), 0) as runs,
       coalesce(count(case when status = 1 AND timestamp BETWEEN NOW() - INTERVAL '14 DAY' AND NOW() then 1 end), 0) AS passes,
       coalesce(count(case when status = 13 AND timestamp BETWEEN NOW() - INTERVAL '14 DAY' AND NOW() then 1 end), 0) AS flakes,
       coalesce(count(case when status = 12 AND timestamp BETWEEN NOW() - INTERVAL '14 DAY' AND NOW() then 1 end), 0) AS failures
FROM prow_job_run_tests
         JOIN tests ON tests.id = prow_job_run_tests.test_id
         JOIN prow_job_runs ON prow_job_runs.id = prow_job_run_tests.prow_job_run_id
         JOIN prow_jobs ON prow_jobs.id = prow_job_runs.prow_job_id
WHERE timestamp > NOW() - INTERVAL '14 DAY'
GROUP BY tests.name, tests.id, date, variant, release
".

Definition testAnalysisByJobMatView : string := "
SELECT 
       tests.id AS test_id,
       tests.name AS test_name,
       date(prow_job_runs.timestamp) AS date,
       prow_jobs.release AS release,
       prow_jobs.name AS job_name,
       coalesce(count(case when timestamp BETWEEN NOW() - INTERVAL '14 DAY' AND NOW() then 1 end), 0) as runs,
       coalesce(count(case when status = 1 AND timestamp BETWEEN NOW() - INTERVAL '14 DAY' AND NOW() then 1 end), 0) AS passes,
       coalesce(count(case when status = 13 AND timestamp BETWEEN NOW() - INTERVAL '14 DAY' AND NOW() then 1 end), 0) AS flakes,
       coalesce(count(case when status = 12 AND timestamp BETWEEN NOW() - INTERVAL '14 DAY' AND NOW() then 1 end), 0) AS failures
FROM prow_job_run_tests
         JOIN tests ON tests.id = prow_job_run_tests.test_id
         JOIN prow_job_runs ON prow_job_runs.id = prow_job_run_tests.prow_job_run_id
         JOIN prow_jobs ON prow_jobs.id = prow_job_runs.prow_job_id
WHERE timestamp > NOW() - INTERVAL '14 DAY'
GROUP BY tests.name, tests.id, date, release, job_name
".

Definition PostgresMatViews : list PostgresMaterializedView :=
  [ {| Name := "prow_test_report_7d_matview";
       Definition_ := testReportMatView;
       ReplaceStrings :=
         <["|||START|||" := "NOW() - INTERVAL '14 DAY'"]>
         (<["|||BOUNDARY|||" := "NOW() - INTERVAL '7 DAY'"]>
         (<["|||END|||" := "NOW()"]> ∅)) |};
    {| Name := "prow_test_analysis_by_variant_14d_matview";
       Definition_ := testAnalysisByVariantMatView;
       ReplaceStrings := ∅ |};
    {| Name := "prow_test_analysis_by_job_14d_matview";
       Definition_ := testAnalysisByJobMatView;
       ReplaceStrings := ∅ |};
    {| Name := "prow_test_report_2d_matview";
       Definition_ := testReportMatView;
       ReplaceStrings :=
         <["|||START|||" := "NOW() - INTERVAL '9 DAY'"]>
         (<["|||BOUNDARY|||" := "NOW() - INTERVAL '2 DAY'"]>
         (<["|||END|||" := "NOW()"]> ∅)) |} ].

(** The substitution loop of [createPostgresMaterializedViews],
    [for k, v := range pmv.ReplaceStrings { vd = strings.ReplaceAll(vd, k, v) }],
    along one iteration order [kvs] of the map. *)
Definition substitute (kvs : list (string * string)) (vd : string) : string :=
  foldl (fun vd kv => ReplaceAll vd kv.1 kv.2) vd kvs.

(** testSuitePrefixes are known test suites we want to detect in
    testgrid test names (appears as suiteName.testName). *)
Definition testSuitePrefixes : list string :=
  [ "openshift-tests";          (* a primary origin test suite name *)
    "openshift-tests-upgrade";  (* a primary origin test suite name *)
    "sippy" ].                  (* used for all synthetic tests sippy adds *)

(** *** The database behind a [*gorm.DB] handle *)

(** The statements the package sends to the server. *)
Inductive Statement :=
| Open (dsn : string)                (* gorm.Open(postgres.Open(dsn), ...) *)
| AutoMigrate (model : string)       (* db.AutoMigrate(&models.X{}) *)
| CountMatviews (matviewname : string)
    (* the count of the rows of pg_matviews WHERE matviewname = ? *)
| Exec (sql : string)                (* db.Exec(sql) *)
| FirstSuite (name : string)         (* db.Where("name = ?", name).First(&s) *)
| CreateSuite (name : string)
    (* db.Clauses(clause.OnConflict{UpdateAll: true}).Create(&s) *)
| SelectLastID (table : string).
    (* db.Table(table).Order("id desc").Limit(1).Select("id").Scan(&lastID) *)

#[global] Instance Statement_eq_dec : EqDecision Statement.
Proof. solve_decision. Defined.

Record Postgres := {
  (* the system view pg_matviews: matviewname -> definition *)
  pg_matviews : gmap string string;
  (* the rows of the suites table, in primary-key order *)
  suites : list Models.Suite;
  (* every other table: the ids of its rows *)
  relations : gmap string (list Z);
  (* every statement received so far, oldest first *)
  journal : list Statement
}.

Definition set_journal (j : list Statement) (pg : Postgres) : Postgres :=
  {| pg_matviews := pg_matviews pg; suites := suites pg;
     relations := relations pg; journal := j |}.

Definition set_pg_matviews (m : gmap string string) (pg : Postgres) : Postgres :=
  {| pg_matviews := m; suites := suites pg;
     relations := relations pg; journal := journal pg |}.

Definition set_suites (l : list Models.Suite) (pg : Postgres) : Postgres :=
  {| pg_matviews := pg_matviews pg; suites := l;
     relations := relations pg; journal := journal pg |}.

(** What the program does not control: which statements fail in the
    driver or on the wire ([fault n] is the failure, if any, of the
    statement sent when [n] statements were sent before it), and the
    order in which a [range] over a Go map visits its entries (any
    order, possibly another one at each [range]). *)
Record Env := {
  fault : nat -> option string;
  range_order : nat -> gmap string string -> list (string * string);
  range_order_perm : forall n m, map_to_list m ≡ₚ range_order n m
}.

(** The ids of the rows of [table], [None] when there is no such table. *)
Definition table_ids (pg : Postgres) (table : string) : option (list Z) :=
  if decide (table = "suites") then Some (Models.ID <$> suites pg)
  else relations pg !! table.

(** The highest of the ids [id :: ids] (ORDER BY id DESC LIMIT 1). *)
Definition max_id (id : Z) (ids : list Z) : Z := foldr Z.max id ids.

Definition suite_named (name : string) (s : Models.Suite) : bool :=
  bool_decide (Models.Name s = name).

(** The names of the rows of the suites table. *)
Definition suite_names (pg : Postgres) : list string :=
  Models.Name <$> suites pg.

Definition is_Exec (q : Statement) : bool :=
  match q with Exec _ => true | _ => false end.

(** The client returned by [New]; the [*gorm.DB] field is the
    connection to the [Postgres] state, passed explicitly below. *)
Record DB := {
  (* BatchSize is used for how many insertions we should do at once.
     Postgres supports a maximum of 2^16 records per insert. *)
  BatchSize : Z
}.

(** The models migrated by [New], in the order of its calls. *)
Definition migrated : list string :=
  [ "ReleaseTag"; "PullRequest"; "Repository"; "JobRun"; "ProwJob";
    "ProwJobRun"; "Test"; "Suite"; "ProwJobRunTest"; "Bug" ].

(** [fmt.Sprintf("CREATE MATERIALIZED VIEW %s AS %s", name, vd)] *)
Definition create_matview_sql (name vd : string) : string :=
  "CREATE MATERIALIZED VIEW " +:+ name +:+ " AS " +:+ vd.

Section Client.

Variable env : Env.

(** Send one statement: it is journalled, and fails if the
    environment says so. *)
Definition send (q : Statement) (pg : Postgres) : option Error * Postgres :=
  (ErrOther <$> fault env (length (journal pg)),
   set_journal (journal pg ++ [q]) pg).

(** [db.Raw("SELECT COUNT ... FROM pg_matviews WHERE matviewname = ?", name).Count(&count)] *)
Definition count_matviews (name : string) (pg : Postgres)
  : (Error + Z) * Postgres :=
  let '(e, pg1) := send (CountMatviews name) pg in
  match e with
  | Some err => (inl err, pg1)
  | None =>
      (inr (match pg_matviews pg1 !! name with Some _ => 1%Z | None => 0%Z end), pg1)
  end.

(** [db.Exec(fmt.Sprintf("CREATE MATERIALIZED VIEW %s AS %s", name, vd))]:
    the server refuses a name that is taken. *)
Definition exec_create_matview (name vd : string) (pg : Postgres)
  : option Error * Postgres :=
  let '(e, pg1) := send (Exec (create_matview_sql name vd)) pg in
  match e with
  | Some err => (Some err, pg1)
  | None =>
      match pg_matviews pg1 !! name with
      | Some _ => (Some (ErrRelationExists name), pg1)
      | None => (None, set_pg_matviews (<[name := vd]> (pg_matviews pg1)) pg1)
      end
  end.

(** One iteration of the loop of [createPostgresMaterializedViews];
    [Some err] is its [return res.Error]. *)
Definition ensure_matview (pmv : PostgresMaterializedView) (pg : Postgres)
  : option Error * Postgres :=
  let '(res, pg1) := count_matviews (Name pmv) pg in
  match res with
  | inl err => (Some err, pg1)
  | inr count =>
      if (count =? 0)%Z then
        let vd :=
          substitute (range_order env (length (journal pg1)) (ReplaceStrings pmv))
                     (Definition_ pmv) in
        exec_create_matview (Name pmv) vd pg1
      else (None, pg1)
  end.

Fixpoint ensure_matviews (views : list PostgresMaterializedView) (pg : Postgres)
  : option Error * Postgres :=
  match views with
  | [] => (None, pg)
  | pmv :: rest =>
      let '(e, pg1) := ensure_matview pmv pg in
      match e with
      | Some err => (Some err, pg1)
      | None => ensure_matviews rest pg1
      end
  end.

Definition createPostgresMaterializedViews (pg : Postgres)
  : option Error * Postgres :=
  ensure_matviews PostgresMatViews pg.

(** [k] runs of [createPostgresMaterializedViews] one after the
    other: what each returned, first run first, and the final state. *)
Fixpoint create_repeatedly (k : nat) (pg : Postgres)
  : list (option Error) * Postgres :=
  match k with
  | O => ([], pg)
  | S k' =>
      let '(e, pg1) := createPostgresMaterializedViews pg in
      let '(es, pg2) := create_repeatedly k' pg1 in
      (e :: es, pg2)
  end.

(** [db.Where("name = ?", name).First(&s)]: the first matching row
    in primary-key order, [ErrRecordNotFound] when there is none. *)
Definition first_suite (name : string) (pg : Postgres)
  : (Error + Models.Suite) * Postgres :=
  let '(e, pg1) := send (FirstSuite name) pg in
  match e with
  | Some err => (inl err, pg1)
  | None =>
      match find (suite_named name) (suites pg1) with
      | Some s => (inr s, pg1)
      | None => (inl ErrRecordNotFound, pg1)
      end
  end.

(** [db.Clauses(clause.OnConflict{UpdateAll: true}).Create(&s)] for a
    row with a zero [ID]: the server assigns the next id; on a
    conflict on the name the existing row is rewritten with the
    same name, which leaves the table as it is. *)
Definition create_suite (s : Models.Suite) (pg : Postgres)
  : option Error * Postgres :=
  let '(e, pg1) := send (CreateSuite (Models.Name s)) pg in
  match e with
  | Some err => (Some err, pg1)
  | None =>
      if existsb (suite_named (Models.Name s)) (suites pg1) then (None, pg1)
      else
        let row := {| Models.ID := max_id 0 (Models.ID <$> suites pg1) + 1;
                      Models.Name := Models.Name s |} in
        (None, set_suites (suites pg1 ++ [row]) pg1)
  end.

Fixpoint populate_suites (names : list string) (pg : Postgres)
  : option Error * Postgres :=
  match names with
  | [] => (None, pg)
  | suiteName :: rest =>
      let '(res, pg1) := first_suite suiteName pg in
      match res with
      | inl err =>
          if negb (errors_Is err ErrRecordNotFound) then (Some err, pg1)
          else
            let s := {| Models.ID := 0; Models.Name := suiteName |} in
            let '(e, pg2) := create_suite s pg1 in
            match e with
            | Some err' =>
                (Some (ErrWrapped ("error loading suite into db: " +:+ suiteName) err'),
                 pg2)
            | None => populate_suites rest pg2
            end
      | inr _ => populate_suites rest pg1
      end
  end.

Definition populateTestSuitesInDB (pg : Postgres) : option Error * Postgres :=
  populate_suites testSuitePrefixes pg.

(** The run of [db.AutoMigrate] calls at the start of [New]; the
    layout of the tables is not modelled, only that a migration can
    fail. *)
Fixpoint auto_migrate (models : list string) (pg : Postgres)
  : option Error * Postgres :=
  match models with
  | [] => (None, pg)
  | m :: rest =>
      let '(e, pg1) := send (AutoMigrate m) pg in
      match e with
      | Some err => (Some err, pg1)
      | None => auto_migrate rest pg1
      end
  end.

Definition New (dsn : string) (pg : Postgres) : (Error + DB) * Postgres :=
  let '(e, pg1) := send (Open dsn) pg in
  match e with
  | Some err => (inl err, pg1)
  | None =>
      let '(e, pg2) := auto_migrate migrated pg1 in
      match e with
      | Some err => (inl err, pg2)
      | None =>
          let '(e, pg3) := populateTestSuitesInDB pg2 in
          match e with
          | Some err => (inl err, pg3)
          | None =>
              let '(e, pg4) := createPostgresMaterializedViews pg3 in
              match e with
              | Some err => (inl err, pg4)
              | None => (inr {| BatchSize := 1024 |}, pg4)
              end
          end
      end
  end.

(** [Scan(&lastID)] of the highest id of [table]: [dest] is the
    value of the variable before the call; no row leaves it as it is. *)
Definition scan_last_id (table : string) (dest : Z) (pg : Postgres)
  : option Error * Z * Postgres :=
  let '(e, pg1) := send (SelectLastID table) pg in
  match e with
  | Some err => (Some err, dest, pg1)
  | None =>
      match table_ids pg1 table with
      | None => (Some (ErrUndefinedTable table), dest, pg1)
      | Some [] => (None, dest, pg1)
      | Some (id :: ids) => (None, max_id id ids, pg1)
      end
  end.

(** LastID returns the last ID (highest) from a table. *)
Definition LastID (db : DB) (table : string) (pg : Postgres) : Z * Postgres :=
  let lastID := 0%Z in
  let '(e, lastID, pg1) := scan_last_id table lastID pg in
  match e with
  | Some _ => (0%Z, pg1)
  | None => (lastID, pg1)
  end.

End Client.

(** The row ceiling of one insert statement, from the comment on
    [BatchSize]: Postgres supports a maximum of 2^16 records per insert. *)
Definition postgresMaxRecordsPerInsert : Z := 2 ^ 16.

(** Modelled from the spec: the store's chunked batch write, which the
    loaders call with [BatchSize] (neither they nor the write are among
    the files embedded here): a batch write of more rows than the
    configured ceiling is chunked into multiple sub-batches.  The rows
    are cut, in order, into sub-batches of [batchSize] rows, the last
    one possibly shorter; each sub-batch is one insert statement.
    [fuel] bounds the number of sub-batches. *)
Fixpoint sub_batches {A} (fuel batchSize : nat) (rows : list A) : list (list A) :=
  match fuel with
  | O => []
  | S fuel' =>
      match rows with
      | [] => []
      | _ => take batchSize rows :: sub_batches fuel' batchSize (drop batchSize rows)
      end
  end.

(** Modelled from the spec: the batch write itself, the sub-batches of
    [rows] for the ceiling [batchSize]; there are at most as many as
    rows. *)
Definition CreateInBatches {A} (rows : list A) (batchSize : Z) : list (list A) :=
  sub_batches (length rows) (Z.to_nat batchSize) rows.

End Db.

(** ** Test identity normalizer *)

Module Normalizer.

Import GoStrings.

(** Modelled from the spec: the Test Identity Normalizer, of which only
    the registry [Db.testSuitePrefixes] is among the files embedded
    here.  Given a raw test name and the closed registry of known
    suite prefixes it produces an optional suite and a canonical name:
    matching is prefix-based against the registry, the longest match
    wins when prefixes overlap, and an unmatched name passes through
    unchanged with no suite.  A suite prefix is followed by a dot
    (suiteName.testName), which belongs to neither part: [matches] is
    the prefix test. *)
Definition matches (raw suite : string) : bool :=
  HasPrefix raw (suite +:+ ".").

(** Modelled from the spec: the longest match wins; of two matches of
    the same length the one met first stays. *)
Definition longer (best : option string) (suite : string) : option string :=
  match best with
  | None => Some suite
  | Some b => if (String.length b <? String.length suite)%nat then Some suite else Some b
  end.

(** Modelled from the spec: the longest of the matching suites, if any
    suite matches. *)
Definition longest (candidates : list string) : option string :=
  foldl longer None candidates.

(** Modelled from the spec: the canonical name is what follows the
    suite and the dot; [drop_bytes n s] is [s] without its first [n]
    bytes. *)
Fixpoint drop_bytes (n : nat) (s : string) : string :=
  match n, s with
  | S n', String _ s' => drop_bytes n' s'
  | _, _ => s
  end.

(** Modelled from the spec: the normalizer, from the registry and the
    raw name to the optional suite and the canonical name. *)
Definition normalize (registry : list string) (raw : string) : option string * string :=
  match longest (filter (fun suite => matches raw suite = true) registry) with
  | Some suite => (Some suite, drop_bytes (String.length suite + 1) raw)
  | None => (None, raw)
  end.

End Normalizer.

(** ** Package [testidentification] *)

Module Testidentification.

(** VariantManager identifies and describes different variants.  A Go
    interface fixes the signatures only: a method receives the
    implementing value [T], which it may read and update.
    [ClusterData] stands for [models.ClusterData]. *)
Class VariantManager (ClusterData T : Type) := {
  (* AllVariants returns a set of all known variants *)
  AllVariants : T -> gset string * T;
  (* AllPlatforms returns a set of all known platform variants *)
  AllPlatforms : T -> gset string * T;
  (* IdentifyVariants takes a job name and returns the list of
     variants that job belongs to. *)
  IdentifyVariants : T -> string -> string -> ClusterData -> list string * T;
  (* IsJobNeverStable returns true if the job has been curated as
     never having passed more than 50ish% of the time. *)
  IsJobNeverStable : T -> string -> bool * T
}.

End Testidentification.

(** ** The [load] command *)

Module LoadCommand.

(** The loaders [RunE] can select. *)
Inductive DataLoader :=
| ReleaseLoader          (* releaseloader.New(dbc, f.Releases, f.Architectures) *)
| ProwLoader             (* f.prowLoader(ctx, dbc, config) *)
| JiraLoader             (* jiraloader.New(dbc) *)
| TestOwnershipLoader    (* testownershiploader.New(ctx, dbc, ...) *)
| BugLoader.             (* bugloader.New(dbc) *)

#[global] Instance DataLoader_eq_dec : EqDecision DataLoader.
Proof. solve_decision. Defined.

(** The flags read by the control flow of [RunE]. *)
Record LoadFlags := {
  Loaders : list string;
  InitDatabase : bool
}.

(** A committed row: its table and its key. *)
Definition Row : Type := string * string.

(** What an invocation does, as far as the order of the loads and of
    the refresh is concerned. *)
Inductive Event :=
| LoadStarted (l : DataLoader)
| LoadFinished (l : DataLoader)
| RefreshDataCalled.

#[global] Instance Event_eq_dec : EqDecision Event.
Proof. solve_decision. Defined.

(** The canonical store as the command sees it. *)
Record Store := {
  (* the rows committed to the tables, oldest first *)
  committed : list Row;
  (* the rows the materialized views were last computed from *)
  refreshed : list Row;
  (* what has happened so far, oldest first *)
  events : list Event
}.

(** The collaborators of [RunE], whose code lies outside the files
    embedded here: the outcome of each fallible call ([None] for success;
    the constructors called inside the loop receive the position in
    [f.Loaders] they are called at), and the run of one loader on the
    rows committed so far: the rows it commits and the fatal errors
    it reports. *)
Record Collaborators := {
  GetDBClient : option Error;
  UpdateSchema : option Error;
  GetConfig : option Error;
  prowLoader : nat -> option Error;
  testownershiploader_New : nat -> option Error;
  loader_Load : DataLoader -> list Row -> list Row * list Error
}.

(** Append an event to the history of the store. *)
Definition record (e : Event) (st : Store) : Store :=
  {| committed := committed st; refreshed := refreshed st;
     events := events st ++ [e] |}.

(** Commit rows to the store. *)
Definition commit (rows : list Row) (st : Store) : Store :=
  {| committed := committed st ++ rows; refreshed := refreshed st;
     events := events st |}.

(** The coordinator value: the loaders it wraps and the fatal errors
    collected by its [Load]. *)
Record LoaderWithMetrics := {
  loaders : list DataLoader;
  errs : list Error
}.

Section Command.

Variable c : Collaborators.

(** Modelled from the spec: the metrics-wrapped coordinator (package
    loaderwithmetrics).  On run it invokes every selected loader in
    sequence and exposes the ordered sequence of the fatal errors
    encountered; a loader that fails does not stop the loaders
    after it, and what a loader committed stays committed. *)
Fixpoint run_loaders (ls : list DataLoader) (st : Store) : list Error * Store :=
  match ls with
  | [] => ([], st)
  | l :: rest =>
      let st1 := record (LoadStarted l) st in
      let '(rows, es) := loader_Load c l (committed st1) in
      let st2 := record (LoadFinished l) (commit rows st1) in
      let '(es', st3) := run_loaders rest st2 in
      (es ++ es', st3)
  end.

(** Modelled from the spec: [loaderwithmetrics.New(loaders)], one
    coordinator per invocation, with no error collected yet. *)
Definition loaderwithmetrics_New (ls : list DataLoader) : LoaderWithMetrics :=
  {| loaders := ls; errs := [] |}.

(** Modelled from the spec: the coordinator's [Load()], which runs the
    loaders and keeps their fatal errors. *)
Definition Load (l : LoaderWithMetrics) (st : Store) : LoaderWithMetrics * Store :=
  let '(es, st1) := run_loaders (loaders l) st in
  ({| loaders := loaders l; errs := errs l ++ es |}, st1).

(** Modelled from the spec: the coordinator's [Errors()], the ordered
    sequence of the fatal errors collected. *)
Definition Errors (l : LoaderWithMetrics) : list Error := errs l.

(** Modelled from the spec: [sippyserver.RefreshData], the refresh of
    the Aggregate Maintainer.  It reads the data the loaders wrote:
    the materialized views are recomputed from the committed rows,
    and no row is written or removed. *)
Definition RefreshData (st : Store) : Store :=
  record RefreshDataCalled
    {| committed := committed st; refreshed := committed st;
       events := events st |}.

(** The body of [for _, l := range f.Loaders], for the name [l] at
    position [i]. *)
Definition select_loader (i : nat) (l : string) (loaders : list DataLoader)
  : Error + list DataLoader :=
  (* Release payload tag loader *)
  let loaders :=
    if decide (l = "releases") then loaders ++ [ReleaseLoader] else loaders in
  (* Prow Loader *)
  match
    (if decide (l = "prow") then
       match prowLoader c i with
       | Some err => inl err
       | None => inr (loaders ++ [ProwLoader])
       end
     else inr loaders)
  with
  | inl err => inl err
  | inr loaders =>
      (* JIRA Loader *)
      let loaders :=
        if decide (l = "jira") then loaders ++ [JiraLoader] else loaders in
      (* Load maping for jira components to tests *)
      match
        (if decide (l = "test-mapping") then
           match testownershiploader_New c i with
           | Some err => inl (ErrWrapped "failed to create component loader" err)
           | None => inr (loaders ++ [TestOwnershipLoader])
           end
         else inr loaders)
      with
      | inl err => inl err
      | inr loaders =>
          (* Bug Loader *)
          inr (if decide (l = "bugs") then loaders ++ [BugLoader] else loaders)
      end
  end.

Fixpoint select_loaders (i : nat) (names : list string) (loaders : list DataLoader)
  : Error + list DataLoader :=
  match names with
  | [] => inr loaders
  | l :: rest =>
      match select_loader i l loaders with
      | inl err => inl err
      | inr loaders' => select_loaders (S i) rest loaders'
      end
  end.

(** The [RunE] closure of [NewLoadCommand]. *)
Definition RunE (f : LoadFlags) (st : Store) : option Error * Store :=
  let loaders : list DataLoader := [] in
  let allErrs : list Error := [] in
  (* Get a DB client *)
  match GetDBClient c with
  | Some err => (Some (ErrWrapped "could not get db client: %+v" err), st)
  | None =>
      match (if InitDatabase f then UpdateSchema c else None) with
      | Some err => (Some (ErrWrapped "could not migrate db" err), st)
      | None =>
          (* Sippy Config *)
          match GetConfig c with
          | Some err => (Some err, st)
          | None =>
              match select_loaders 0 (Loaders f) loaders with
              | inl err => (Some err, st)
              | inr loaders =>
                  (* Run loaders with the metrics wrapper *)
                  let l := loaderwithmetrics_New loaders in
                  let '(l, st1) := Load l st in
                  let allErrs :=
                    if (0 <? length (Errors l))%nat
                    then allErrs ++ Errors l else allErrs in
                  let st2 := RefreshData st1 in
                  if (0 <? length allErrs)%nat then
                    (Some (ErrOther "errors were encountered while loading database, see logs for details"),
                     st2)
                  else (None, st2)
              end
          end
      end
  end.

End Command.

End LoadCommand.

(** ** The constructor of the prow loader *)

Module ProwLoader.

Import LoadCommand.

(** The constructors [prowLoader] calls.  A client argument is recorded
    by whether it is a client ([true]) or nil ([false]). *)
Inductive Call :=
| NewGCSClient                (* gcs.NewGCSClient(ctx, ...) *)
| NewBigQueryClient           (* bigquery.NewClient(ctx, ...) *)
| GithubNew                   (* github.New(ctx) *)
| NewGitHubCommenter (githubClient : bool)
    (* commenter.NewGitHubCommenter(githubClient, dbc, ...) *)
| ProwloaderNew (bigQueryClient githubClient : bool).
    (* prowloader.New(ctx, dbc, gcsClient, bigQueryClient, ..., githubClient, ...) *)

#[global] Instance Call_eq_dec : EqDecision Call.
Proof. solve_decision. Defined.

(** The outcome of each fallible constructor ([None] for success); the
    commenter's may depend on whether it is given a client. *)
Record Constructors := {
  gcs_NewGCSClient : option Error;
  bigquery_NewClient : option Error;
  commenter_NewGitHubCommenter : bool -> option Error
}.

(** The loop [for _, l := range f.Loaders] of [prowLoader], which
    builds the GitHub client at the first "github" and breaks: the
    calls it makes. *)
Fixpoint github_client (names : list string) : list Call :=
  match names with
  | [] => []
  | l :: rest => if decide (l = "github") then [GithubNew] else github_client rest
  end.

(** [f.prowLoader(ctx, dbc, sippyConfig)]: the error or the loader built
    (the call of [prowloader.New] that builds it), and the constructors
    called, in order.  [LoadOpenShiftCIBigQuery] is the field of that
    name of the flags. *)
Definition prowLoader (k : Constructors) (f : LoadFlags)
    (LoadOpenShiftCIBigQuery : bool) : (Error + Call) * list Call :=
  match gcs_NewGCSClient k with
  | Some err => (inl err, [NewGCSClient])
  | None =>
      let calls := [NewGCSClient] in
      (* var bigQueryClient *bigquery.Client *)
      let bigQueryClient := false in
      match
        (if LoadOpenShiftCIBigQuery
         then (bigquery_NewClient k, true, calls ++ [NewBigQueryClient])
         else (None, bigQueryClient, calls))
      with
      | (Some err, _, calls) => (inl err, calls)
      | (None, bigQueryClient, calls) =>
          (* var githubClient *github.Client *)
          let built := github_client (Loaders f) in
          let githubClient := bool_decide (built ≠ []) in
          let calls := calls ++ built in
          let calls := calls ++ [NewGitHubCommenter githubClient] in
          match commenter_NewGitHubCommenter k githubClient with
          | Some err => (inl err, calls)
          | None =>
              let loader := ProwloaderNew bigQueryClient githubClient in
              (inr loader, calls ++ [loader])
          end
      end
  end.

End ProwLoader.

(** ** Package [esapi]: the Security Put Privileges request *)

Module Esapi.

(** [url.Values] and [http.Header]: a map from a key to its values. *)
Abbreviation Values := (gmap string (list string)).

(** [strings.Join(elems, sep)]. *)
Fixpoint Join (elems : list string) (sep : string) : string :=
  match elems with
  | [] => ""
  | [e] => e
  | e :: rest => e +:+ sep +:+ Join rest sep
  end.

(** SecurityPutPrivilegesRequest configures the Security Put Privileges
    API request.  A reader and a context are recorded by what they
    hold, [None] for nil; so is the header, a nil map or a map. *)
Record SecurityPutPrivilegesRequest := {
  Body : option string;
  Refresh : string;
  Pretty : bool;
  Human : bool;
  ErrorTrace : bool;
  FilterPath : list string;
  Header : option Values;
  ctx : option string
}.

(** The [*http.Request] as far as [Do] touches it: [Query] is
    [req.URL.Query()], the parsed form of [req.URL.RawQuery]. *)
Record Request := {
  Method : string;
  Path : string;
  Query : Values;
  ReqHeader : Values;
  ReqBody : option string;
  ReqContext : option string
}.

(** The [Response] of the package, and the fields of the
    [*http.Response] it is copied from. *)
Record Response := {
  StatusCode : Z;
  ResBody : string;
  ResHeader : Values
}.

(** What Go's runtime and standard library decide:
    [textproto.CanonicalMIMEHeaderKey], used by [http.Header.Add] and
    [Set], and the order in which a [range] visits a map. *)
Record Runtime := {
  CanonicalMIMEHeaderKey : string → string;
  range_strings : gmap string string → list (string * string);
  range_strings_perm : ∀ m, map_to_list m ≡ₚ range_strings m;
  range_values : Values → list (string * list string);
  range_values_perm : ∀ m, map_to_list m ≡ₚ range_values m
}.

(** The rest of the package, which [Do] uses and which lies outside the
    file embedded here: [newRequest] and the two constants of the
    content type header. *)
Record Package := {
  newRequest : string → string → option string → Error + Request;
  headerContentType : string;
  headerContentTypeJSON : list string
}.

(** The transport: [transport.Perform(req)]. *)
Definition Transport : Type := Request → Error + Response.

Definition set_Query (q : Values) (req : Request) : Request :=
  {| Method := Method req; Path := Path req; Query := q;
     ReqHeader := ReqHeader req; ReqBody := ReqBody req;
     ReqContext := ReqContext req |}.

Definition set_ReqHeader (h : Values) (req : Request) : Request :=
  {| Method := Method req; Path := Path req; Query := Query req;
     ReqHeader := h; ReqBody := ReqBody req;
     ReqContext := ReqContext req |}.

(** [req.WithContext(ctx)]. *)
Definition Request_WithContext (c : string) (req : Request) : Request :=
  {| Method := Method req; Path := Path req; Query := Query req;
     ReqHeader := ReqHeader req; ReqBody := ReqBody req;
     ReqContext := Some c |}.

(** [q.Set(k, v)] of [url.Values]. *)
Definition Values_Set (q : Values) (k v : string) : Values :=
  <[k := [v]]> q.

(** The parameters [Do] computes from the fields of the request. *)
Definition params (r : SecurityPutPrivilegesRequest) : gmap string string :=
  let params : gmap string string := ∅ in
  let params :=
    if decide (Refresh r ≠ "") then <["refresh" := Refresh r]> params else params in
  let params := if Pretty r then <["pretty" := "true"]> params else params in
  let params := if Human r then <["human" := "true"]> params else params in
  let params := if ErrorTrace r then <["error_trace" := "true"]> params else params in
  let params :=
    if decide (0 < length (FilterPath r))
    then <["filter_path" := Join (FilterPath r) ","]> params else params in
  params.

Section Runtime.

Variable rt : Runtime.

(** [h.Add(key, value)] of [http.Header]. *)
Definition Header_Add (h : Values) (key value : string) : Values :=
  let k := CanonicalMIMEHeaderKey rt key in
  <[k := default [] (h !! k) ++ [value]]> h.

(** [h.Set(key, value)] of [http.Header]. *)
Definition Header_Set (h : Values) (key value : string) : Values :=
  <[CanonicalMIMEHeaderKey rt key := [value]]> h.

(** WithContext sets the request context. *)
Definition WithContext (v : option string)
    (r : SecurityPutPrivilegesRequest) : SecurityPutPrivilegesRequest :=
  {| Body := Body r; Refresh := Refresh r; Pretty := Pretty r; Human := Human r;
     ErrorTrace := ErrorTrace r; FilterPath := FilterPath r; Header := Header r;
     ctx := v |}.

(** WithRefresh - if `true` (the default) then refresh the affected
    shards, if `wait_for` then wait for a refresh, if `false` then do
    nothing with refreshes. *)
Definition WithRefresh (v : string)
    (r : SecurityPutPrivilegesRequest) : SecurityPutPrivilegesRequest :=
  {| Body := Body r; Refresh := v; Pretty := Pretty r; Human := Human r;
     ErrorTrace := ErrorTrace r; FilterPath := FilterPath r; Header := Header r;
     ctx := ctx r |}.

(** WithPretty makes the response body pretty-printed. *)
Definition WithPretty
    (r : SecurityPutPrivilegesRequest) : SecurityPutPrivilegesRequest :=
  {| Body := Body r; Refresh := Refresh r; Pretty := true; Human := Human r;
     ErrorTrace := ErrorTrace r; FilterPath := FilterPath r; Header := Header r;
     ctx := ctx r |}.

(** WithHuman makes statistical values human-readable. *)
Definition WithHuman
    (r : SecurityPutPrivilegesRequest) : SecurityPutPrivilegesRequest :=
  {| Body := Body r; Refresh := Refresh r; Pretty := Pretty r; Human := true;
     ErrorTrace := ErrorTrace r; FilterPath := FilterPath r; Header := Header r;
     ctx := ctx r |}.

(** WithErrorTrace includes the stack trace for errors in the response
    body. *)
Definition WithErrorTrace
    (r : SecurityPutPrivilegesRequest) : SecurityPutPrivilegesRequest :=
  {| Body := Body r; Refresh := Refresh r; Pretty := Pretty r; Human := Human r;
     ErrorTrace := true; FilterPath := FilterPath r; Header := Header r;
     ctx := ctx r |}.

(** WithFilterPath filters the properties of the response body. *)
Definition WithFilterPath (v : list string)
    (r : SecurityPutPrivilegesRequest) : SecurityPutPrivilegesRequest :=
  {| Body := Body r; Refresh := Refresh r; Pretty := Pretty r; Human := Human r;
     ErrorTrace := ErrorTrace r; FilterPath := v; Header := Header r;
     ctx := ctx r |}.

Definition set_Header (h : Values)
    (r : SecurityPutPrivilegesRequest) : SecurityPutPrivilegesRequest :=
  {| Body := Body r; Refresh := Refresh r; Pretty := Pretty r; Human := Human r;
     ErrorTrace := ErrorTrace r; FilterPath := FilterPath r; Header := Some h;
     ctx := ctx r |}.

(** WithHeader adds the headers to the HTTP request. *)
Definition WithHeader (h : gmap string string)
    (r : SecurityPutPrivilegesRequest) : SecurityPutPrivilegesRequest :=
  (* if r.Header == nil { r.Header = make(http.Header) } *)
  let header := match Header r with None => ∅ | Some header => header end in
  set_Header
    (foldl (fun header kv => Header_Add header kv.1 kv.2) header (range_strings rt h))
    r.

(** WithOpaqueID adds the X-Opaque-Id header to the HTTP request. *)
Definition WithOpaqueID (s : string)
    (r : SecurityPutPrivilegesRequest) : SecurityPutPrivilegesRequest :=
  let header := match Header r with None => ∅ | Some header => header end in
  set_Header (Header_Set header "X-Opaque-Id" s) r.

Variable pk : Package.

(** The part of [Do] before [transport.Perform]: the request it
    builds, or the error of [newRequest]. *)
Definition build (r : SecurityPutPrivilegesRequest) (ctx : option string)
  : Error + Request :=
  let method := "PUT" in
  let path := "/_security/privilege/" in
  let params := params r in
  match newRequest pk method path (Body r) with
  | inl err => inl err
  | inr req =>
      let req :=
        if decide (0 < size params) then
          let q := Query req in
          let q := foldl (fun q kv => Values_Set q kv.1 kv.2) q
                         (range_strings rt params) in
          set_Query q req
        else req in
      let req :=
        match Body r with
        | Some _ =>
            set_ReqHeader
              (<[headerContentType pk := headerContentTypeJSON pk]> (ReqHeader req)) req
        | None => req
        end in
      let req :=
        match Header r with
        | Some header =>
            if decide (0 < size header) then
              if decide (size (ReqHeader req) = 0) then set_ReqHeader header req
              else
                set_ReqHeader
                  (foldl (fun h kvv =>
                            foldl (fun h v => Header_Add h kvv.1 v) h kvv.2)
                         (ReqHeader req) (range_values rt header))
                  req
            else req
        | None => req
        end in
      let req :=
        match ctx with
        | Some c => Request_WithContext c req
        | None => req
        end in
      inr req
  end.

(** Do executes the request and returns response or error. *)
Definition Do (r : SecurityPutPrivilegesRequest) (ctx : option string)
    (transport : Transport) : Error + Response :=
  match build r ctx with
  | inl err => inl err
  | inr req =>
      match transport req with
      | inl err => inl err
      | inr res =>
          inr {| StatusCode := StatusCode res;
                 ResBody := ResBody res;
                 ResHeader := ResHeader res |}
      end
  end.

(** [newSecurityPutPrivilegesFunc(t)]: the options are applied in
    order to a request that holds the body, which is then executed
    with its own context. *)
Definition newSecurityPutPrivilegesFunc (t : Transport) (body : option string)
    (o : list (SecurityPutPrivilegesRequest → SecurityPutPrivilegesRequest))
  : Error + Response :=
  let r := {| Body := body; Refresh := ""; Pretty := false; Human := false;
              ErrorTrace := false; FilterPath := []; Header := None;
              ctx := None |} in
  let r := foldl (fun r f => f r) r o in
  Do r (ctx r) t.

End Runtime.

End Esapi.

(** * Vocabulary of the properties

    Scenarios (environments, stores, flags), the outcomes of the loop
    iterations, and the wording of the design document where a property
    compares the code with it. *)

Module DbSpec.

Import GoStrings Db.

(** An environment without failures, whose [range] visits a map in the
    order of [map_to_list]. *)
Definition quiet : Env :=
  {| fault := fun _ => None;
     range_order := fun _ m => map_to_list m;
     range_order_perm := fun _ m => reflexivity (map_to_list m) |}.

(** A database with no view, no suite and no table. *)
Definition empty_pg : Postgres :=
  {| pg_matviews := ∅; suites := []; relations := ∅; journal := [] |}.

(** A database whose prow_jobs table has three rows. *)
Definition three_jobs : Postgres :=
  {| pg_matviews := ∅; suites := [];
     relations := {[ "prow_jobs" := [3; 7; 5]%Z ]}; journal := [] |}.

(** The outcomes of one iteration of the seeding loop. *)
Inductive seed_outcome (env : Env) (name : string) (pg : Postgres)
  : option Error * Postgres → Prop :=
| seed_lookup_failed msg :
    fault env (length (journal pg)) = Some msg →
    seed_outcome env name pg
      (Some (ErrOther msg), set_journal (journal pg ++ [FirstSuite name]) pg)
| seed_present s :
    s ∈ suites pg → Models.Name s = name →
    seed_outcome env name pg
      (None, set_journal (journal pg ++ [FirstSuite name]) pg)
| seed_create_failed msg :
    name ∉ suite_names pg →
    fault env (S (length (journal pg))) = Some msg →
    seed_outcome env name pg
      (Some (ErrWrapped ("error loading suite into db: " +:+ name) (ErrOther msg)),
       set_journal (journal pg ++ [FirstSuite name; CreateSuite name]) pg)
| seed_created :
    name ∉ suite_names pg →
    seed_outcome env name pg
      (None,
       {| pg_matviews := pg_matviews pg;
          suites := suites pg ++
            [ {| Models.ID := max_id 0 (Models.ID <$> suites pg) + 1;
                 Models.Name := name |} ];
          relations := relations pg;
          journal := journal pg ++ [FirstSuite name; CreateSuite name] |}).

(** A database that has the sippy suite only. *)
Definition one_suite : Postgres :=
  {| pg_matviews := ∅;
     suites := [ {| Models.ID := 4; Models.Name := "sippy" |} ];
     relations := ∅; journal := [] |}.

(** The definition [createPostgresMaterializedViews] gives to [pmv]
    when its [range] runs at time [n]. *)
Definition resolved (env : Env) (n : nat) (pmv : PostgresMaterializedView) : string :=
  substitute (range_order env n (ReplaceStrings pmv)) (Definition_ pmv).

(** The outcomes of one iteration of the loop over the catalog. *)
Inductive matview_outcome (env : Env) (pmv : PostgresMaterializedView) (pg : Postgres)
  : option Error * Postgres → Prop :=
| matview_count_failed msg :
    fault env (length (journal pg)) = Some msg →
    matview_outcome env pmv pg
      (Some (ErrOther msg),
       set_journal (journal pg ++ [CountMatviews (Name pmv)]) pg)
| matview_present d :
    fault env (length (journal pg)) = None →
    pg_matviews pg !! Name pmv = Some d →
    matview_outcome env pmv pg
      (None, set_journal (journal pg ++ [CountMatviews (Name pmv)]) pg)
| matview_create_failed msg :
    fault env (length (journal pg)) = None →
    pg_matviews pg !! Name pmv = None →
    fault env (S (length (journal pg))) = Some msg →
    matview_outcome env pmv pg
      (Some (ErrOther msg),
       set_journal
         (journal pg ++
            [CountMatviews (Name pmv);
             Exec (create_matview_sql (Name pmv)
                     (resolved env (S (length (journal pg))) pmv))]) pg)
| matview_created :
    fault env (length (journal pg)) = None →
    pg_matviews pg !! Name pmv = None →
    matview_outcome env pmv pg
      (None,
       {| pg_matviews :=
            <[Name pmv := resolved env (S (length (journal pg))) pmv]>
              (pg_matviews pg);
          suites := suites pg;
          relations := relations pg;
          journal :=
            journal pg ++
              [CountMatviews (Name pmv);
               Exec (create_matview_sql (Name pmv)
                       (resolved env (S (length (journal pg))) pmv))] |}).

(** The resolved definition of the 7-day test report: the template with
    START, BOUNDARY and END replaced. *)
Definition testReport7dResolved : string := "
SELECT 
	tests.name AS name,
	coalesce(count(case when status = 1 AND timestamp BETWEEN NOW() - INTERVAL '14 DAY' AND NOW() - INTERVAL '7 DAY' then 1 end), 0) AS previous_successes,
    coalesce(count(case when status = 13 AND timestamp BETWEEN NOW() - INTERVAL '14 DAY' AND NOW() - INTERVAL '7 DAY' then 1 end), 0) AS previous_flakes,
    coalesce(count(case when status = 12 AND timestamp BETWEEN NOW() - INTERVAL '14 DAY' AND NOW() - INTERVAL '7 DAY' then 1 end), 0) AS previous_failures,
    coalesce(count(case when timestamp BETWEEN NOW() - INTERVAL '14 DAY' AND NOW() - INTERVAL '7 DAY' then 1 end), 0) as previous_runs,
    coalesce(count(case when status = 1 AND timestamp BETWEEN NOW() - INTERVAL '7 DAY' AND NOW() then 1 end), 0) AS current_successes,
    coalesce(count(case when status = 13 AND timestamp BETWEEN NOW() - INTERVAL '7 DAY' AND NOW() then 1 end), 0) AS current_flakes,
    coalesce(count(case when status = 12 AND timestamp BETWEEN NOW() - INTERVAL '7 DAY' AND NOW() then 1 end), 0) AS current_failures,
    coalesce(count(case when timestamp BETWEEN NOW() - INTERVAL '7 DAY' AND NOW() then 1 end), 0) as current_runs,
    prow_jobs.variants, prow_jobs.release
FROM prow_job_run_tests
    JOIN tests ON tests.id = prow_job_run_tests.test_id
    JOIN prow_job_runs ON prow_job_runs.id = prow_job_run_tests.prow_job_run_id
    JOIN prow_jobs ON prow_job_runs.prow_job_id = prow_jobs.id
GROUP BY tests.name, prow_jobs.variants, prow_jobs.release
".

(** The first entry of the catalog. *)
Definition testReport7d : PostgresMaterializedView :=
  {| Name := "prow_test_report_7d_matview";
     Definition_ := testReportMatView;
     ReplaceStrings :=
       <["|||START|||" := "NOW() - INTERVAL '14 DAY'"]>
       (<["|||BOUNDARY|||" := "NOW() - INTERVAL '7 DAY'"]>
       (<["|||END|||" := "NOW()"]> ∅)) |}.

(** A refresh of the view [name] is among the statements [stmts]. *)
Definition refresh_requested (name : string) (stmts : list Statement) : Prop :=
  ∃ sql, Exec sql ∈ stmts ∧
         HasPrefix sql "REFRESH MATERIALIZED VIEW" = true ∧
         Contains sql name = true.

(** The startup as the design document words it: an entry of the
    catalog that is missing is created from its template, an entry
    that exists is refreshed. *)
Definition startup_as_specified (env : Env) (dsn : string) (pg : Postgres) : Prop :=
  ∀ db pg', New env dsn pg = (inr db, pg') →
    ∀ pmv, pmv ∈ PostgresMatViews →
      match pg_matviews pg !! Name pmv with
      | None =>
          ∃ kvs, map_to_list (ReplaceStrings pmv) ≡ₚ kvs ∧
                 pg_matviews pg' !! Name pmv
                   = Some (substitute kvs (Definition_ pmv))
      | Some _ =>
          refresh_requested (Name pmv) (drop (length (journal pg)) (journal pg'))
      end.

(** The store left by a first startup on an empty database. *)
Definition started : Postgres := (New quiet "host=localhost" empty_pg).2.

End DbSpec.

Module LoadSpec.

Import LoadCommand.

(** The loader a name of [f.Loaders] selects, if any ("github" names
    no loader of its own). *)
Definition loader_named (l : string) : option DataLoader :=
  if decide (l = "releases") then Some ReleaseLoader
  else if decide (l = "prow") then Some ProwLoader
  else if decide (l = "jira") then Some JiraLoader
  else if decide (l = "test-mapping") then Some TestOwnershipLoader
  else if decide (l = "bugs") then Some BugLoader
  else None.

(** [RunE] got as far as running the loaders [ls]: no call before the
    coordinator's [Load] made it return. *)
Definition ran (c : Collaborators) (f : LoadFlags) (ls : list DataLoader) : Prop :=
  GetDBClient c = None ∧
  (if InitDatabase f then UpdateSchema c else None) = None ∧
  GetConfig c = None ∧
  select_loaders c 0 (Loaders f) [] = inr ls.

(** What each loader of [ls] does when they run in sequence on a
    store holding [rows0]: the rows it commits and the fatal errors
    it reports. *)
Fixpoint loader_reports (c : Collaborators) (ls : list DataLoader) (rows0 : list Row)
  : list (DataLoader * (list Row * list Error)) :=
  match ls with
  | [] => []
  | l :: rest =>
      let report := loader_Load c l rows0 in
      (l, report) :: loader_reports c rest (rows0 ++ report.1)
  end.

(** The events of the [Load] of the loaders [ls] one after the other. *)
Definition load_events (ls : list DataLoader) : list Event :=
  ls ≫= fun l => [LoadStarted l; LoadFinished l].

(** The error [RunE] returns when loaders reported fatal errors. *)
Definition loading_failed : Error :=
  ErrOther "errors were encountered while loading database, see logs for details".

(** A run in which the issue tracker is down: the jira loader reports
    a fatal error, the prow and release loaders commit a row each. *)
Definition jira_down : Collaborators :=
  {| GetDBClient := None;
     UpdateSchema := None;
     GetConfig := None;
     prowLoader := fun _ => None;
     testownershiploader_New := fun _ => None;
     loader_Load := fun l _ =>
       match l with
       | JiraLoader => ([], [ErrOther "jira: connection refused"])
       | ProwLoader => ([("prow_job_runs", "1001")], [])
       | ReleaseLoader => ([("release_tags", "4.12.0-rc.1")], [])
       | _ => ([], [])
       end |}.

(** The default value of the loader flag. *)
Definition default_flags : LoadFlags :=
  {| Loaders := ["prow"; "releases"; "jira"; "github"; "bugs"; "test-mapping"];
     InitDatabase := false |}.

(** The loaders it selects. *)
Definition default_loaders : list DataLoader :=
  [ProwLoader; ReleaseLoader; JiraLoader; BugLoader; TestOwnershipLoader].

(** A store with no row, before any event. *)
Definition empty_store : Store :=
  {| committed := []; refreshed := []; events := [] |}.

End LoadSpec.

(** ** Outcomes of [New] and further scenarios of the store *)

Module DbMoreSpec.

Import GoStrings Db DbSpec.

(** [pg'] holds the data of [pg]: the same views, suites and tables
    (the journal apart). *)
Definition same_data (pg pg' : Postgres) : Prop :=
  pg_matviews pg' = pg_matviews pg ∧
  suites pg' = suites pg ∧
  relations pg' = relations pg.

(** A statement that writes data: an execution or the creation of a
    suite. *)
Definition is_write (q : Statement) : bool :=
  match q with
  | Exec _ | CreateSuite _ => true
  | _ => false
  end.

(** The statements of the loop over the catalog: existence queries and
    executions. *)
Definition is_view_statement (q : Statement) : bool :=
  match q with
  | CountMatviews _ | Exec _ => true
  | _ => false
  end.


(** How [New] ends: at its first failing step, or with a client. *)
Inductive New_outcome (env : Env) (dsn : string) (pg : Postgres)
  : (Error + DB) * Postgres → Prop :=
| New_open_failed err pg1 :
    send env (Open dsn) pg = (Some err, pg1) →
    New_outcome env dsn pg (inl err, pg1)
| New_migration_failed pg1 err pg2 :
    send env (Open dsn) pg = (None, pg1) →
    auto_migrate env migrated pg1 = (Some err, pg2) →
    New_outcome env dsn pg (inl err, pg2)
| New_seeding_failed pg1 pg2 err pg3 :
    send env (Open dsn) pg = (None, pg1) →
    auto_migrate env migrated pg1 = (None, pg2) →
    populateTestSuitesInDB env pg2 = (Some err, pg3) →
    New_outcome env dsn pg (inl err, pg3)
| New_views_failed pg1 pg2 pg3 err pg4 :
    send env (Open dsn) pg = (None, pg1) →
    auto_migrate env migrated pg1 = (None, pg2) →
    populateTestSuitesInDB env pg2 = (None, pg3) →
    createPostgresMaterializedViews env pg3 = (Some err, pg4) →
    New_outcome env dsn pg (inl err, pg4)
| New_started pg1 pg2 pg3 pg4 :
    send env (Open dsn) pg = (None, pg1) →
    auto_migrate env migrated pg1 = (None, pg2) →
    populateTestSuitesInDB env pg2 = (None, pg3) →
    createPostgresMaterializedViews env pg3 = (None, pg4) →
    New_outcome env dsn pg (inr {| BatchSize := 1024 |}, pg4).

(** An environment in which the statement sent at time [n] fails. *)
Definition failing_at (n : nat) (msg : string) : Env :=
  {| fault := fun t => if decide (t = n) then Some msg else None;
     range_order := fun _ m => map_to_list m;
     range_order_perm := fun _ m => reflexivity (map_to_list m) |}.

(** A database where the 7-day test report exists with a definition of
    an earlier release. *)
Definition old_report : Postgres :=
  {| pg_matviews := {[ "prow_test_report_7d_matview" := "SELECT 1" ]};
     suites := []; relations := ∅; journal := [] |}.

(** The last entry of the catalog. *)
Definition testReport2d : PostgresMaterializedView :=
  {| Name := "prow_test_report_2d_matview";
     Definition_ := testReportMatView;
     ReplaceStrings :=
       <["|||START|||" := "NOW() - INTERVAL '9 DAY'"]>
       (<["|||BOUNDARY|||" := "NOW() - INTERVAL '2 DAY'"]>
       (<["|||END|||" := "NOW()"]> ∅)) |}.

(** An environment without failures, whose [range] visits a map in
    the reverse of the order of [quiet]. *)
Definition backwards : Env :=
  {| fault := fun _ => None;
     range_order := fun _ m => reverse (map_to_list m);
     range_order_perm := fun _ m =>
       symmetry (reverse_Permutation (map_to_list m)) |}.

End DbMoreSpec.

(** ** Constructors of the loaders *)

Module LoadMoreSpec.

Import LoadCommand LoadSpec.

(** The error, if any, of the constructor that the name [l] at
    position [i] of [f.Loaders] calls. *)
Definition constructor_error (c : Collaborators) (i : nat) (l : string)
  : option Error :=
  if decide (l = "prow") then LoadCommand.prowLoader c i
  else if decide (l = "test-mapping")
       then ErrWrapped "failed to create component loader"
              <$> testownershiploader_New c i
       else None.

(** [c] with another outcome for [UpdateSchema]. *)
Definition with_UpdateSchema (e : option Error) (c : Collaborators) : Collaborators :=
  {| GetDBClient := GetDBClient c;
     UpdateSchema := e;
     GetConfig := GetConfig c;
     prowLoader := LoadCommand.prowLoader c;
     testownershiploader_New := testownershiploader_New c;
     loader_Load := loader_Load c |}.

(** A run in which the GCS client of the prow loader cannot be built. *)
Definition gcs_down : Collaborators :=
  {| GetDBClient := None;
     UpdateSchema := None;
     GetConfig := None;
     prowLoader := fun _ => Some (ErrOther "gcs: no credentials");
     testownershiploader_New := fun _ => None;
     loader_Load := fun l _ =>
       match l with
       | ReleaseLoader => ([("release_tags", "4.12.0-rc.1")], [])
       | _ => ([], [])
       end |}.

(** Releases first, then prow. *)
Definition releases_then_prow : LoadFlags :=
  {| Loaders := ["releases"; "prow"]; InitDatabase := false |}.

(** Only the GitHub client is asked for. *)
Definition github_only : LoadFlags :=
  {| Loaders := ["github"]; InitDatabase := false |}.

(** Constructors that all succeed. *)
Definition all_built : ProwLoader.Constructors :=
  {| ProwLoader.gcs_NewGCSClient := None;
     ProwLoader.bigquery_NewClient := None;
     ProwLoader.commenter_NewGitHubCommenter := fun _ => None |}.

(** Constructors of which the BigQuery one fails. *)
Definition bigquery_down : ProwLoader.Constructors :=
  {| ProwLoader.gcs_NewGCSClient := None;
     ProwLoader.bigquery_NewClient := Some (ErrOther "bigquery: permission denied");
     ProwLoader.commenter_NewGitHubCommenter := fun _ => None |}.

(** "github" listed twice. *)
Definition github_twice : LoadFlags :=
  {| Loaders := ["prow"; "github"; "jira"; "github"]; InitDatabase := false |}.

End LoadMoreSpec.

(** ** Requests of package [esapi] *)

Module EsapiSpec.
Import Esapi.

(** The options the file offers, by name and argument. *)
Inductive With :=
| ByContext (v : option string)
| ByRefresh (v : string)
| ByPretty
| ByHuman
| ByErrorTrace
| ByFilterPath (v : list string)
| ByHeader (h : gmap string string)
| ByOpaqueID (s : string).

#[global] Instance With_eq_dec : EqDecision With.
Proof. solve_decision. Defined.

(** The function each option stands for. *)
Definition option_of (rt : Runtime) (w : With)
  : SecurityPutPrivilegesRequest → SecurityPutPrivilegesRequest :=
  match w with
  | ByContext v => WithContext v
  | ByRefresh v => WithRefresh v
  | ByPretty => WithPretty
  | ByHuman => WithHuman
  | ByErrorTrace => WithErrorTrace
  | ByFilterPath v => WithFilterPath v
  | ByHeader h => WithHeader rt h
  | ByOpaqueID s => WithOpaqueID rt s
  end.

(** The request [newSecurityPutPrivilegesFunc] starts from. *)
Definition fresh (body : option string) : SecurityPutPrivilegesRequest :=
  {| Body := body; Refresh := ""; Pretty := false; Human := false;
     ErrorTrace := false; FilterPath := []; Header := None; ctx := None |}.

(** The options applied in order to a request. *)
Definition apply_all (rt : Runtime) (r : SecurityPutPrivilegesRequest)
    (ws : list With) : SecurityPutPrivilegesRequest :=
  foldl (fun r f => f r) r (option_of rt <$> ws).

(** The request as [newSecurityPutPrivilegesFunc] has configured it
    when it calls [Do]. *)
Definition configured (rt : Runtime) (body : option string) (ws : list With)
  : SecurityPutPrivilegesRequest :=
  apply_all rt (fresh body) ws.

(** What [newSecurityPutPrivilegesFunc] hands to the transport. *)
Definition sent (rt : Runtime) (pk : Package) (body : option string)
    (ws : list With) : Error + Request :=
  build rt pk (configured rt body ws) (ctx (configured rt body ws)).

Definition sets_refresh (w : With) : bool :=
  match w with ByRefresh _ => true | _ => false end.

Definition sets_filter_path (w : With) : bool :=
  match w with ByFilterPath _ => true | _ => false end.

Definition sets_context (w : With) : bool :=
  match w with ByContext _ => true | _ => false end.

Definition sets_opaque_id (w : With) : bool :=
  match w with ByOpaqueID _ => true | _ => false end.

(** The header values of a request under a key, none for a nil map. *)
Definition header_values (r : SecurityPutPrivilegesRequest) (k : string)
  : list string :=
  match Header r with
  | Some h => default [] (h !! k)
  | None => []
  end.

(** The method and path of the API. *)
Definition endpoint (pk : Package) (body : option string) : Error + Request :=
  newRequest pk "PUT" "/_security/privilege/" body.

(** [h[k]] of a Go map of slices: the nil slice for a missing key. *)
Definition at_key (h : Values) (k : string) : list string :=
  default [] (h !! k).

(** The values a request's header gives for the canonical key [K], in
    the order in which [Do] ranges over the header. *)
Definition given (rt : Runtime) (r : SecurityPutPrivilegesRequest) (K : string)
  : list string :=
  match Header r with
  | Some h =>
      range_values rt h ≫=
        (fun kvv => if decide (K = CanonicalMIMEHeaderKey rt kvv.1) then kvv.2 else [])
  | None => []
  end.

(** A runtime for examples: keys are canonical as they are written, and
    a range visits a map in the order of [map_to_list]. *)
Definition as_written : Runtime :=
  {| CanonicalMIMEHeaderKey := fun k => k;
     range_strings := map_to_list;
     range_strings_perm := fun m => reflexivity (map_to_list m);
     range_values := map_to_list;
     range_values_perm := fun m => reflexivity (map_to_list m) |}.

(** A [newRequest] that succeeds with an empty query and no header. *)
Definition plain_request (method path : string) (body : option string)
  : Error + Request :=
  inr {| Method := method; Path := path; Query := ∅; ReqHeader := ∅;
         ReqBody := body; ReqContext := None |}.

Definition json_package : Package :=
  {| newRequest := plain_request;
     headerContentType := "Content-Type";
     headerContentTypeJSON := ["application/json"] |}.

(** A [newRequest] that fails. *)
Definition broken_package : Package :=
  {| newRequest := fun _ _ _ => inl (ErrOther "invalid method");
     headerContentType := "Content-Type";
     headerContentTypeJSON := ["application/json"] |}.

End EsapiSpec.

(** * Properties *)

Module DbFacts.

Import GoStrings Db DbSpec.

(** ** The client and [LastID] *)

(** C10.  [LastID] has no error result and is defined for every table
    name and every state of the database: whenever the id query fails
    (a failure of the driver, or a table that does not exist) it
    returns 0, on an empty table it returns 0 as well, and otherwise
    the highest id. *)
Theorem LastID_total (env : Env) (db : DB) (table : string) (pg : Postgres) :
  let r := LastID env db table pg in
  ((scan_last_id env table 0 pg).1.1 ≠ None → r.1 = 0%Z) ∧
  (is_Some (fault env (length (journal pg))) → r.1 = 0%Z) ∧
  (table_ids pg table = None → r.1 = 0%Z) ∧
  (table_ids pg table = Some [] → r.1 = 0%Z) ∧
  (∀ id ids, fault env (length (journal pg)) = None →
             table_ids pg table = Some (id :: ids) → r.1 = max_id id ids).
Proof.
  unfold LastID, scan_last_id, send; cbn.
  change (table_ids (set_journal _ pg) table) with (table_ids pg table).
  destruct (fault env (length (journal pg))) as [msg|] eqn:Hf; cbn.
  { repeat split; try done. }
  destruct (table_ids pg table) as [[|id ids]|] eqn:Ht; cbn;
    repeat split; try done.
  intros id' ids' _ [= <- <-]. done.
Qed.

Lemma LastID_total_witness :
  (LastID quiet {| BatchSize := 1024 |} "prow_jobs" empty_pg).1 = 0%Z ∧
  (LastID quiet {| BatchSize := 1024 |} "prow_jobs" three_jobs).1 = 7%Z.
Proof.
  split.
  - destruct (LastID_total quiet {| BatchSize := 1024 |} "prow_jobs" empty_pg)
      as (_ & _ & Hmissing & _).
    apply Hmissing. reflexivity.
  - destruct (LastID_total quiet {| BatchSize := 1024 |} "prow_jobs" three_jobs)
      as (_ & _ & _ & _ & Hrows).
    apply (Hrows 3%Z [7; 5]%Z); reflexivity.
Defined.

(** ** Sub-batches *)

(** With enough fuel the sub-batches are the rows, in order. *)
Lemma sub_batches_concat {A} (n : nat) :
  0 < n → ∀ fuel (rows : list A),
  length rows ≤ fuel → concat (sub_batches fuel n rows) = rows.
Proof.
  intros Hn. induction fuel as [|fuel IH]; intros rows Hlen.
  - destruct rows; [done | cbn in Hlen; lia].
  - destruct rows as [|r rows]; [done|].
    cbn [sub_batches concat]. rewrite IH, take_drop; [done|].
    rewrite length_drop. cbn in *. lia.
Qed.

(** No sub-batch exceeds the batch size. *)
Lemma sub_batches_bound {A} (n : nat) fuel (rows : list A) :
  Forall (fun b => length b ≤ n) (sub_batches fuel n rows).
Proof.
  revert rows. induction fuel as [|fuel IH]; intros rows; [constructor|].
  destruct rows as [|r rows]; [constructor|].
  cbn [sub_batches]. constructor; [|apply IH].
  rewrite length_take. lia.
Qed.

(** More rows than the batch size make several sub-batches. *)
Lemma sub_batches_several {A} (n : nat) fuel (rows : list A) :
  0 < n → length rows ≤ fuel → n < length rows →
  1 < length (sub_batches fuel n rows).
Proof.
  intros Hn Hfuel Hlen.
  destruct fuel as [|fuel]; [lia|].
  destruct rows as [|r rows]; [cbn in Hlen; lia|].
  cbn [sub_batches length].
  destruct fuel as [|fuel]; [cbn in *; lia|].
  destruct (drop n (r :: rows)) as [|r' rows'] eqn:Hd.
  - apply (f_equal length) in Hd. rewrite length_drop in Hd. cbn in *. lia.
  - cbn. lia.
Qed.

(** The client of a startup that succeeds. *)
Lemma New_returns env dsn pg db pg' :
  New env dsn pg = (inr db, pg') → db = {| BatchSize := 1024 |}.
Proof.
  unfold New. intros H.
  destruct (send env (Open dsn) pg) as [[?|] pg1]; [done|].
  destruct (auto_migrate env migrated pg1) as [[?|] pg2]; [done|].
  destruct (populateTestSuitesInDB env pg2) as [[?|] pg3]; [done|].
  destruct (createPostgresMaterializedViews env pg3) as [[?|] pg4]; [done|].
  by injection H as <- _.
Qed.

(** C9.  Every client returned by [New] has batch size 1024, which is
    at most the ceiling of 2^16 rows of one insert statement; a batch
    write with that size sends the rows, all of them and in order, in
    sub-batches of at most [BatchSize] rows each, hence never more
    than the ceiling in one statement, and in more than one sub-batch
    when there are more rows than [BatchSize]. *)
Theorem New_BatchSize_within_ceiling
    (env : Env) (dsn : string) (pg : Postgres) (db : DB) (pg' : Postgres) :
  New env dsn pg = (inr db, pg') →
  BatchSize db = 1024%Z ∧
  (BatchSize db ≤ postgresMaxRecordsPerInsert)%Z ∧
  ∀ (A : Type) (rows : list A),
    let batches := CreateInBatches rows (BatchSize db) in
    concat batches = rows ∧
    Forall (fun b => (Z.of_nat (length b) ≤ BatchSize db)%Z ∧
                     (Z.of_nat (length b) ≤ postgresMaxRecordsPerInsert)%Z) batches ∧
    ((BatchSize db < Z.of_nat (length rows))%Z → 1 < length batches).
Proof.
  intros ->%New_returns. cbn [BatchSize].
  split; [done|]. split; [done|].
  intros A rows. unfold CreateInBatches.
  assert (Hn : 0 < Z.to_nat 1024) by lia.
  split; [by apply sub_batches_concat|].
  split.
  - eapply Forall_impl; [apply sub_batches_bound|].
    cbn. intros b Hb. unfold postgresMaxRecordsPerInsert. lia.
  - intros Hlen. apply sub_batches_several; lia.
Qed.

Lemma New_BatchSize_within_ceiling_witness :
  ∃ db pg', New quiet "host=localhost" empty_pg = (inr db, pg') ∧
            BatchSize db = 1024%Z ∧
            concat (CreateInBatches (replicate 2500 ()) (BatchSize db))
            = replicate 2500 ().
Proof.
  assert (H : New quiet "host=localhost" empty_pg
              = (inr {| BatchSize := 1024 |},
                 (New quiet "host=localhost" empty_pg).2))
    by (vm_compute; reflexivity).
  eexists _, _. split; [exact H|].
  destruct (New_BatchSize_within_ceiling _ _ _ _ _ H) as (Hsize & _ & Hrows).
  split; [exact Hsize|]. apply (Hrows unit (replicate 2500 ())).
Defined.

(** ** Suite seeding *)

(** What the lookup by name finds. *)
Lemma find_suite_named (name : string) (l : list Models.Suite) :
  match find (suite_named name) l with
  | Some s => s ∈ l ∧ Models.Name s = name
  | None => (name ∉ Models.Name <$> l) ∧ existsb (suite_named name) l = false
  end.
Proof.
  induction l as [|x l IH]; cbn.
  - split; [by intros ?%elem_of_nil | done].
  - unfold suite_named at 1 3. case_bool_decide as Hx; cbn.
    + split; [by left | done].
    + destruct (find (suite_named name) l) as [s|].
      * destruct IH. split; [by right | done].
      * destruct IH as [Hnot Hex]. split; [|done].
        intros [?|?]%elem_of_cons; [congruence | done].
Qed.

(** One unfolding of the seeding loop. *)
Lemma populate_suites_cons env name rest pg :
  ∃ o, seed_outcome env name pg o ∧
       populate_suites env (name :: rest) pg =
       match o.1 with
       | Some err => o
       | None => populate_suites env rest o.2
       end.
Proof.
  cbn [populate_suites]. unfold first_suite, create_suite, send. cbn.
  destruct (fault env (length (journal pg))) as [msg|] eqn:Hf1; cbn.
  { eexists; split; [by apply seed_lookup_failed|]. done. }
  pose proof (find_suite_named name (suites pg)) as Hfind.
  destruct (find (suite_named name) (suites pg)) as [s|].
  { destruct Hfind. eexists; split; [by eapply seed_present|]. done. }
  destruct Hfind as [Hnot Hex]. cbn. rewrite length_app, Nat.add_1_r.
  destruct (fault env (S (length (journal pg)))) as [msg|] eqn:Hf2; cbn.
  { eexists; split; [by apply seed_create_failed|]. cbn.
    unfold set_journal; cbn. by rewrite <-app_assoc. }
  rewrite Hex.
  eexists; split; [by apply seed_created|]. cbn.
  unfold set_suites, set_journal; cbn. by rewrite <-app_assoc.
Qed.

(** What a run of the seeding loop does to the store: it appends rows
    to the suites table, one for each distinct name that was missing,
    and touches nothing else but the journal, where it leaves no
    [Exec]. *)
Lemma populate_suites_spec env names :
  ∀ pg, let r := populate_suites env names pg in
    ∃ added stmts,
      suites r.2 = suites pg ++ added ∧
      NoDup (Models.Name <$> added) ∧
      (∀ s, s ∈ added → Models.Name s ∈ names ∧ Models.Name s ∉ suite_names pg) ∧
      (r.1 = None → ∀ n, n ∈ names → n ∈ suite_names r.2) ∧
      pg_matviews r.2 = pg_matviews pg ∧
      journal r.2 = journal pg ++ stmts ∧
      Forall (fun q => is_Exec q = false) stmts.
Proof.
  induction names as [|name rest IH]; intros pg r.
  { exists [], []. subst r; cbn. rewrite !app_nil_r.
    split_and!; [done | constructor | | | done | done | constructor].
    - by intros ? ?%elem_of_nil.
    - by intros ? ? ?%elem_of_nil. }
  destruct (populate_suites_cons env name rest pg) as (o & Ho & Heq).
  subst r. rewrite Heq. clear Heq.
  destruct Ho as [msg Hf|s Hs Hname|msg Hnot Hf|Hnot]; cbn [fst snd].
  - exists [], [FirstSuite name]. cbn. rewrite app_nil_r.
    split_and!; [done | constructor | | done | done | done | ].
    + by intros ? ?%elem_of_nil.
    + by repeat constructor.
  - destruct (IH (set_journal (journal pg ++ [FirstSuite name]) pg))
      as (added & stmts & Hsu & Hnd & Hadd & Hok & Hmv & Hj & Hex).
    exists added, (FirstSuite name :: stmts). cbn in *.
    split; [done|]. split; [done|]. split; [|split; [|split; [done|split]]].
    + intros s' Hs'. destruct (Hadd s' Hs'). split; [by right | done].
    + intros Hnone n [->|Hn]%elem_of_cons; [|by apply Hok].
      unfold suite_names. rewrite Hsu, fmap_app. apply elem_of_app. left.
      apply list_elem_of_fmap. by exists s.
    + by rewrite Hj, <-app_assoc.
    + by constructor.
  - exists [], [FirstSuite name; CreateSuite name]. cbn. rewrite app_nil_r.
    split_and!; [done | constructor | | done | done | done | ].
    + by intros ? ?%elem_of_nil.
    + by repeat constructor.
  - match goal with |- context [populate_suites env rest ?pg2] =>
      destruct (IH pg2)
        as (added & stmts & Hsu & Hnd & Hadd & Hok & Hmv & Hj & Hex) end.
    set (row := {| Models.ID := max_id 0 (Models.ID <$> suites pg) + 1;
                   Models.Name := name |}) in *.
    exists (row :: added), (FirstSuite name :: CreateSuite name :: stmts).
    cbn in *. unfold suite_names in *. cbn in *.
    rewrite fmap_app in Hadd. cbn in Hadd.
    split; [by rewrite Hsu, <-app_assoc|].
    split; [|split; [|split; [|split; [done|split]]]].
    + constructor; [|done]. intros (s & Hsn & Hs)%list_elem_of_fmap.
      destruct (Hadd s Hs) as [_ Hfresh]. apply Hfresh.
      apply elem_of_app. right. rewrite <-Hsn. by left.
    + intros s [->|Hs]%elem_of_cons.
      * split; [by left | done].
      * destruct (Hadd s Hs) as [Hin Hfresh]. split; [by right|].
        intros Hc. apply Hfresh. apply elem_of_app. by left.
    + intros Hnone n [->|Hn]%elem_of_cons; [|by apply Hok].
      rewrite Hsu, !fmap_app. cbn.
      apply elem_of_app. left. apply elem_of_app. right. by left.
    + by rewrite Hj, <-app_assoc.
    + by repeat constructor.
Qed.

(** C6.  A run of [populateTestSuitesInDB] never deletes a row of the
    suites table and creates no duplicate: the new table is the old
    one followed by rows for distinct names of the registry that had
    no row (so a table without duplicate names stays so).  When the
    run succeeds every name of the registry has a row.  Run on a table
    that has them all it leaves the table as it is, so once the
    seeding has succeeded every later run, whether it succeeds or
    fails, keeps the rows unchanged. *)
Theorem populateTestSuitesInDB_seeds (env : Env) (pg : Postgres) :
  let r := populateTestSuitesInDB env pg in
  (∃ added,
     suites r.2 = suites pg ++ added ∧
     NoDup (Models.Name <$> added) ∧
     ∀ s, s ∈ added →
          Models.Name s ∈ testSuitePrefixes ∧ Models.Name s ∉ suite_names pg) ∧
  (NoDup (suite_names pg) → NoDup (suite_names r.2)) ∧
  (r.1 = None → ∀ name, name ∈ testSuitePrefixes → name ∈ suite_names r.2) ∧
  ((∀ name, name ∈ testSuitePrefixes → name ∈ suite_names pg) →
     suites r.2 = suites pg) ∧
  (r.1 = None → ∀ env',
     suites (populateTestSuitesInDB env' r.2).2 = suites r.2).
Proof.
  intros r.
  assert (Hrerun : ∀ env0 pg0,
    (∀ name, name ∈ testSuitePrefixes → name ∈ suite_names pg0) →
    suites (populateTestSuitesInDB env0 pg0).2 = suites pg0).
  { intros env0 pg0 Hall.
    destruct (populate_suites_spec env0 testSuitePrefixes pg0)
      as (added & _ & Hsu & _ & Hadd & _).
    unfold populateTestSuitesInDB. rewrite Hsu.
    destruct added as [|s added]; [by rewrite app_nil_r|].
    destruct (Hadd s) as [Hin Hfresh]; [by left|].
    by destruct Hfresh; apply Hall. }
  destruct (populate_suites_spec env testSuitePrefixes pg)
    as (added & stmts & Hsu & Hnd & Hadd & Hok & _).
  fold (populateTestSuitesInDB env pg) in Hsu, Hok. fold r in Hsu, Hok.
  split; [by exists added|].
  split; [|split; [done|split]].
  - intros Hnd0. unfold suite_names. rewrite Hsu, fmap_app.
    apply NoDup_app. split; [done|]. split; [|done].
    intros n Hn (s & -> & Hs)%list_elem_of_fmap.
    by destruct (Hadd s Hs) as [_ Hfresh].
  - apply Hrerun.
  - intros Hnone env'. apply Hrerun. by apply Hok.
Qed.

Lemma populateTestSuitesInDB_seeds_witness :
  suite_names (populateTestSuitesInDB quiet one_suite).2
    = ["sippy"; "openshift-tests"; "openshift-tests-upgrade"] ∧
  NoDup (suite_names (populateTestSuitesInDB quiet one_suite).2) ∧
  "openshift-tests-upgrade"
    ∈ suite_names (populateTestSuitesInDB quiet one_suite).2 ∧
  suites (populateTestSuitesInDB quiet
            (populateTestSuitesInDB quiet one_suite).2).2
    = suites (populateTestSuitesInDB quiet one_suite).2.
Proof.
  destruct (populateTestSuitesInDB_seeds quiet one_suite)
    as (_ & Hnodup & Hall & _ & Hrerun).
  split; [reflexivity|]. split; [|split].
  - apply Hnodup. vm_compute. apply NoDup_singleton.
  - apply Hall; [reflexivity|]. right; left.
  - apply Hrerun. reflexivity.
Defined.

(** ** The materialized views *)

(** One iteration of the loop has one of the four outcomes. *)
Lemma ensure_matview_outcome env pmv pg :
  matview_outcome env pmv pg (ensure_matview env pmv pg).
Proof.
  unfold ensure_matview, count_matviews, exec_create_matview, send. cbn.
  destruct (fault env (length (journal pg))) as [msg|] eqn:Hf1; cbn.
  { by apply matview_count_failed. }
  destruct (pg_matviews pg !! Name pmv) as [d|] eqn:Hd; cbn.
  { by eapply matview_present. }
  rewrite length_app, Nat.add_1_r.
  fold (resolved env (S (length (journal pg))) pmv).
  destruct (fault env (S (length (journal pg)))) as [msg|] eqn:Hf2; cbn.
  { unfold set_journal; cbn. rewrite <-app_assoc.
    by apply matview_create_failed. }
  unfold set_pg_matviews, set_journal; cbn. rewrite <-app_assoc.
  by apply matview_created.
Qed.

(** One unfolding of the loop over the catalog. *)
Lemma ensure_matviews_cons env pmv rest pg :
  ∃ o, matview_outcome env pmv pg o ∧
       ensure_matviews env (pmv :: rest) pg =
       match o.1 with
       | Some err => o
       | None => ensure_matviews env rest o.2
       end.
Proof.
  exists (ensure_matview env pmv pg). split; [apply ensure_matview_outcome|].
  cbn [ensure_matviews]. by destruct (ensure_matview env pmv pg) as [[e|] pg1].
Qed.

(** A run over any catalog: it only adds to the journal, it leaves the
    suites alone, it keeps every view that was there, and an error it
    returns is the failure, in the driver, of one of the statements it
    sent. *)
Lemma ensure_matviews_frame env views :
  ∀ pg, let r := ensure_matviews env views pg in
    ∃ stmts,
      journal r.2 = journal pg ++ stmts ∧
      suites r.2 = suites pg ∧
      pg_matviews pg ⊆ pg_matviews r.2 ∧
      (∀ e, r.1 = Some e →
         ∃ n msg, length (journal pg) ≤ n < length (journal r.2) ∧
                  fault env n = Some msg ∧ e = ErrOther msg).
Proof.
  induction views as [|pmv rest IH]; intros pg r.
  { exists []. subst r; cbn. rewrite app_nil_r. by split_and!. }
  destruct (ensure_matviews_cons env pmv rest pg) as (o & Ho & Heq).
  subst r. rewrite Heq. clear Heq.
  destruct Ho as [msg Hf|d Hq Hd|msg Hq Hd Hf|Hq Hd]; cbn [fst snd].
  - eexists. split_and!; [done..|].
    intros e [= <-]. exists (length (journal pg)), msg. cbn.
    rewrite length_app. cbn. split_and!; [lia | lia | done..].
  - match goal with |- context [ensure_matviews env rest ?pg1] =>
      destruct (IH pg1) as (stmts & Hj & Hsu & Hsub & Herr) end.
    exists (CountMatviews (Name pmv) :: stmts). cbn in *.
    split_and!; [by rewrite Hj, <-app_assoc | done | done |].
    intros e He. destruct (Herr e He) as (n & msg & Hn & ?).
    exists n, msg. rewrite length_app in Hn. cbn in Hn. split; [lia | done].
  - eexists. split_and!; [done..|].
    intros e [= <-]. exists (S (length (journal pg))), msg. cbn.
    rewrite length_app. cbn. split_and!; [lia | lia | done..].
  - match goal with |- context [ensure_matviews env rest ?pg1] =>
      destruct (IH pg1) as (stmts & Hj & Hsu & Hsub & Herr) end.
    cbn in *. eexists (_ :: _ :: stmts).
    split_and!; [by rewrite Hj, <-app_assoc | done | |].
    + etransitivity; [|exact Hsub]. by apply insert_subseteq.
    + intros e He. destruct (Herr e He) as (n & msg & Hn & ?).
      exists n, msg. rewrite length_app in Hn. cbn in Hn. split; [lia | done].
Qed.

(** A run over a catalog whose views are all there: no execution is
    sent and the views are left as they are. *)
Lemma ensure_matviews_present env views :
  ∀ pg, (∀ pmv, pmv ∈ views → is_Some (pg_matviews pg !! Name pmv)) →
    let r := ensure_matviews env views pg in
    pg_matviews r.2 = pg_matviews pg ∧
    ∃ stmts, journal r.2 = journal pg ++ stmts ∧
             Forall (fun q => is_Exec q = false) stmts.
Proof.
  induction views as [|pmv rest IH]; intros pg Hall r.
  { subst r; cbn. split; [done|]. exists []. by rewrite app_nil_r. }
  destruct (ensure_matviews_cons env pmv rest pg) as (o & Ho & Heq).
  subst r. rewrite Heq. clear Heq.
  assert (Hhead : is_Some (pg_matviews pg !! Name pmv)) by (apply Hall; by left).
  destruct Ho as [msg Hf|d Hq Hd|msg Hq Hd Hf|Hq Hd]; cbn [fst snd];
    try (rewrite Hd in Hhead; by destruct Hhead).
  - split; [done|]. eexists [_]. split; [done|]. by repeat constructor.
  - match goal with |- context [ensure_matviews env rest ?pg1] =>
      destruct (IH pg1) as (Hmv & stmts & Hj & Hex) end.
    { intros pmv' Hin. cbn. apply Hall. by right. }
    cbn in *. split; [done|].
    exists (CountMatviews (Name pmv) :: stmts).
    split; [by rewrite Hj, <-app_assoc | by constructor].
Qed.

(** A successful run over a catalog: every view of the catalog is
    there afterwards; every execution sent is the creation, from its
    template, of a view of the catalog that was missing; and, when no
    two entries share a name, each entry that was missing has been
    created from its own template, while each entry that was there has
    kept its definition. *)
Lemma ensure_matviews_creates env views :
  ∀ pg, let r := ensure_matviews env views pg in
    ∃ stmts,
      journal r.2 = journal pg ++ stmts ∧
      (∀ sql, Exec sql ∈ stmts →
         ∃ pmv kvs, pmv ∈ views ∧ pg_matviews pg !! Name pmv = None ∧
                    map_to_list (ReplaceStrings pmv) ≡ₚ kvs ∧
                    sql = create_matview_sql (Name pmv)
                            (substitute kvs (Definition_ pmv))) ∧
      (r.1 = None → NoDup (Name <$> views) →
         ∀ pmv, pmv ∈ views →
           match pg_matviews pg !! Name pmv with
           | Some d => pg_matviews r.2 !! Name pmv = Some d
           | None =>
               ∃ kvs, map_to_list (ReplaceStrings pmv) ≡ₚ kvs ∧
                      pg_matviews r.2 !! Name pmv
                        = Some (substitute kvs (Definition_ pmv)) ∧
                      Exec (create_matview_sql (Name pmv)
                              (substitute kvs (Definition_ pmv))) ∈ stmts
           end).
Proof.
  induction views as [|pmv rest IH]; intros pg r.
  { exists []. subst r; cbn. rewrite app_nil_r. split_and!; [done| |].
    - by intros ? ?%elem_of_nil.
    - by intros _ _ ? ?%elem_of_nil. }
  destruct (ensure_matviews_cons env pmv rest pg) as (o & Ho & Heq).
  subst r. rewrite Heq. clear Heq.
  destruct Ho as [msg Hf|d Hq Hd|msg Hq Hd Hf|Hq Hd]; cbn [fst snd].
  - eexists [_]. split_and!; [done | | done].
    by intros sql [[=]|?%elem_of_nil]%elem_of_cons.
  - match goal with |- context [ensure_matviews env rest ?pg1] =>
      destruct (IH pg1) as (stmts & Hj & Hexec & Hok);
      destruct (ensure_matviews_frame env rest pg1) as (_ & _ & _ & Hsub & _)
    end.
    exists (CountMatviews (Name pmv) :: stmts). cbn in *.
    split_and!; [by rewrite Hj, <-app_assoc | |].
    + intros sql [[=]|Hin]%elem_of_cons.
      destruct (Hexec sql Hin) as (pmv' & kvs & ? & ? & ? & ?).
      exists pmv', kvs. split_and!; [by right | done..].
    + intros Hnone [Hfresh Hnd]%NoDup_cons pmv' [->|Hin]%elem_of_cons.
      * rewrite Hd. by eapply lookup_weaken.
      * specialize (Hok Hnone Hnd pmv' Hin).
        destruct (pg_matviews pg !! Name pmv') as [d'|]; [done|].
        destruct Hok as (kvs & ? & ? & ?). exists kvs.
        split_and!; [done | done | by right].
  - eexists [_; _]. split_and!; [done | | done].
    intros sql [[=]|[[= ->]|[]%elem_of_nil]%elem_of_cons]%elem_of_cons.
    exists pmv, (range_order env (S (length (journal pg))) (ReplaceStrings pmv)).
    split_and!; [by left | done | apply range_order_perm | done].
  - match goal with |- context [ensure_matviews env rest ?pg1] =>
      destruct (IH pg1) as (stmts & Hj & Hexec & Hok);
      destruct (ensure_matviews_frame env rest pg1) as (_ & _ & _ & Hsub & _)
    end.
    cbn in *. eexists (_ :: _ :: stmts).
    split_and!; [by rewrite Hj, <-app_assoc | |].
    + intros sql [[=]|[[= ->]|Hin]%elem_of_cons]%elem_of_cons.
      * exists pmv, (range_order env (S (length (journal pg))) (ReplaceStrings pmv)).
        split_and!; [by left | done | apply range_order_perm | done].
      * destruct (Hexec sql Hin) as (pmv' & kvs & ? & Hnone' & ? & ?).
        exists pmv', kvs. split_and!; [by right | | done..].
        apply lookup_insert_None in Hnone'. by destruct Hnone'.
    + intros Hnone [Hfresh Hnd]%NoDup_cons pmv' [->|Hin]%elem_of_cons.
      * rewrite Hd.
        exists (range_order env (S (length (journal pg))) (ReplaceStrings pmv)).
        split_and!; [apply range_order_perm | | right; by left].
        eapply lookup_weaken; [|exact Hsub]. by rewrite lookup_insert_eq.
      * assert (Name pmv ≠ Name pmv') as Hne.
        { intros Heq. apply Hfresh. rewrite Heq.
          apply list_elem_of_fmap. by exists pmv'. }
        specialize (Hok Hnone Hnd pmv' Hin).
        rewrite lookup_insert_ne in Hok by done.
        destruct (pg_matviews pg !! Name pmv') as [d'|]; [done|].
        destruct Hok as (kvs & ? & ? & ?). exists kvs.
        split_and!; [done | done | right; by right].
Qed.

(** After a successful run every view of the catalog is there. *)
Lemma ensure_matviews_all_there env views :
  ∀ pg, let r := ensure_matviews env views pg in
    r.1 = None → ∀ pmv, pmv ∈ views → is_Some (pg_matviews r.2 !! Name pmv).
Proof.
  induction views as [|pmv rest IH]; intros pg r.
  { by intros _ ? ?%elem_of_nil. }
  destruct (ensure_matviews_cons env pmv rest pg) as (o & Ho & Heq).
  subst r. rewrite Heq. clear Heq.
  destruct Ho as [msg Hf|d Hq Hd|msg Hq Hd Hf|Hq Hd]; cbn [fst snd]; try done.
  - match goal with |- context [ensure_matviews env rest ?pg1] =>
      specialize (IH pg1);
      destruct (ensure_matviews_frame env rest pg1) as (_ & _ & _ & Hsub & _)
    end.
    intros Hnone pmv' [->|Hin]%elem_of_cons; [|by apply IH].
    exists d. by eapply lookup_weaken.
  - match goal with |- context [ensure_matviews env rest ?pg1] =>
      specialize (IH pg1);
      destruct (ensure_matviews_frame env rest pg1) as (_ & _ & _ & Hsub & _)
    end.
    intros Hnone pmv' [->|Hin]%elem_of_cons; [|by apply IH].
    eexists. eapply lookup_weaken; [|exact Hsub]. cbn. by rewrite lookup_insert_eq.
Qed.

(** No two entries of the catalog share a name. *)
Lemma PostgresMatViews_NoDup : NoDup (Name <$> PostgresMatViews).
Proof. apply (bool_decide_unpack (NoDup _)). by vm_compute. Qed.

(** C3.  For the 7-day test report, whatever the order in which the
    [range] visits the three replacements, the substitution turns the
    template into [testReport7dResolved]: the previous_ columns count
    from 14 days ago to 7 days ago, the current_ columns from 7 days
    ago to now, and none of the three placeholders is left. *)
Theorem testReport7d_substitution
    (pmv : PostgresMaterializedView) (kvs : list (string * string)) :
  pmv ∈ PostgresMatViews →
  Name pmv = "prow_test_report_7d_matview" →
  map_to_list (ReplaceStrings pmv) ≡ₚ kvs →
  let vd := substitute kvs (Definition_ pmv) in
  vd = testReport7dResolved ∧
  Contains vd "|||START|||" = false ∧
  Contains vd "|||BOUNDARY|||" = false ∧
  Contains vd "|||END|||" = false ∧
  Count (Definition_ pmv) "BETWEEN |||START||| AND |||BOUNDARY|||" = 4 ∧
  Count vd "BETWEEN NOW() - INTERVAL '14 DAY' AND NOW() - INTERVAL '7 DAY'" = 4 ∧
  Count (Definition_ pmv) "BETWEEN |||BOUNDARY||| AND |||END|||" = 4 ∧
  Count vd "BETWEEN NOW() - INTERVAL '7 DAY' AND NOW() then" = 4.
Proof.
  intros Hin Hname Hperm.
  unfold PostgresMatViews in Hin.
  repeat (apply elem_of_cons in Hin as [-> | Hin]); try discriminate Hname;
    [| by apply elem_of_nil in Hin].
  apply permutations_Permutation in Hperm.
  vm_compute in Hperm.
  repeat (apply elem_of_cons in Hperm as [-> | Hperm]);
    [ vm_compute; by split_and! .. | by apply elem_of_nil in Hperm ].
Qed.

(** The same resolved definition, as an equation for other proofs. *)
Lemma substitute_testReport7d
    (pmv : PostgresMaterializedView) (kvs : list (string * string)) :
  pmv ∈ PostgresMatViews →
  Name pmv = "prow_test_report_7d_matview" →
  map_to_list (ReplaceStrings pmv) ≡ₚ kvs →
  substitute kvs (Definition_ pmv) = testReport7dResolved.
Proof.
  intros Hin Hname Hperm.
  unfold PostgresMatViews in Hin.
  repeat (apply elem_of_cons in Hin as [-> | Hin]); try discriminate Hname;
    [| by apply elem_of_nil in Hin].
  apply permutations_Permutation in Hperm.
  vm_compute in Hperm.
  repeat (apply elem_of_cons in Hperm as [-> | Hperm]);
    [ by vm_compute .. | by apply elem_of_nil in Hperm ].
Qed.

Lemma testReport7d_substitution_witness :
  substitute
    [ ("|||END|||", "NOW()");
      ("|||START|||", "NOW() - INTERVAL '14 DAY'");
      ("|||BOUNDARY|||", "NOW() - INTERVAL '7 DAY'") ]
    testReportMatView
  = testReport7dResolved.
Proof.
  apply (testReport7d_substitution testReport7d).
  - by left.
  - reflexivity.
  - apply permutations_Permutation. vm_compute.
    repeat first [ by left | right ].
Defined.

(** Runs on a store that has all the views of the catalog. *)
Lemma create_repeatedly_present env k :
  ∀ pg, (∀ pmv, pmv ∈ PostgresMatViews → is_Some (pg_matviews pg !! Name pmv)) →
    let rk := create_repeatedly env k pg in
    length rk.1 = k ∧
    pg_matviews rk.2 = pg_matviews pg ∧
    (∀ e, Some e ∈ rk.1 → ∃ n msg, fault env n = Some msg ∧ e = ErrOther msg).
Proof.
  induction k as [|k IH]; intros pg Hall rk.
  { subst rk; cbn. split_and!; [done..|]. by intros ? ?%elem_of_nil. }
  subst rk. cbn [create_repeatedly].
  destruct (ensure_matviews_present env PostgresMatViews pg Hall) as [Hmv _].
  destruct (ensure_matviews_frame env PostgresMatViews pg)
    as (_ & _ & _ & _ & Herr).
  fold (createPostgresMaterializedViews env pg) in Hmv, Herr.
  destruct (createPostgresMaterializedViews env pg) as [e pg1]. cbn in Hmv, Herr.
  destruct (IH pg1) as (Hlen & Hmv' & Herr').
  { intros pmv Hin. rewrite Hmv. by apply Hall. }
  destruct (create_repeatedly env k pg1) as [es pg2]. cbn in *.
  split_and!; [by rewrite Hlen | congruence |].
  intros e' [[= <-]|Hin]%elem_of_cons; [|by apply Herr'].
  destruct (Herr e' eq_refl) as (n & msg & _ & ? & ?). by exists n, msg.
Qed.

(** C1.  For every entry of the catalog whose view exists, the
    iteration of [createPostgresMaterializedViews] sends the existence
    query and nothing else: it creates nothing, and it fails only if
    that query itself fails.  An error of a whole run is always the
    failure of a statement in the driver, never the refusal of the
    server to create a view that exists.  A run on a store that has
    all the views leaves them as they are and executes nothing; after
    one successful run, any number of further runs leave the views
    unchanged and fail only on driver failures; and without driver
    failures every run of any number of runs returns nil. *)
Theorem createPostgresMaterializedViews_idempotent (env : Env) (pg : Postgres) :
  (∀ pmv, pmv ∈ PostgresMatViews → is_Some (pg_matviews pg !! Name pmv) →
     let r := ensure_matview env pmv pg in
     r.1 = ErrOther <$> fault env (length (journal pg)) ∧
     pg_matviews r.2 = pg_matviews pg ∧
     journal r.2 = journal pg ++ [CountMatviews (Name pmv)]) ∧
  (∀ e, (createPostgresMaterializedViews env pg).1 = Some e →
     ∃ n msg, fault env n = Some msg ∧ e = ErrOther msg) ∧
  ((∀ pmv, pmv ∈ PostgresMatViews → is_Some (pg_matviews pg !! Name pmv)) →
     let r := createPostgresMaterializedViews env pg in
     pg_matviews r.2 = pg_matviews pg ∧
     ∃ stmts, journal r.2 = journal pg ++ stmts ∧
              Forall (fun q => is_Exec q = false) stmts) ∧
  (∀ k, let r1 := createPostgresMaterializedViews env pg in
        r1.1 = None →
        let rk := create_repeatedly env k r1.2 in
        length rk.1 = k ∧
        pg_matviews rk.2 = pg_matviews r1.2 ∧
        (∀ e, Some e ∈ rk.1 → ∃ n msg, fault env n = Some msg ∧ e = ErrOther msg)) ∧
  ((∀ n, fault env n = None) →
     ∀ k, let rk := create_repeatedly env (S k) pg in
          Forall (fun e => e = None) rk.1 ∧
          pg_matviews rk.2 = pg_matviews (createPostgresMaterializedViews env pg).2).
Proof.
  assert (Herr : ∀ e, (createPostgresMaterializedViews env pg).1 = Some e →
                      ∃ n msg, fault env n = Some msg ∧ e = ErrOther msg).
  { intros e He.
    destruct (ensure_matviews_frame env PostgresMatViews pg)
      as (_ & _ & _ & _ & H).
    destruct (H e He) as (n & msg & _ & ? & ?). by exists n, msg. }
  assert (Hrep : ∀ k, let r1 := createPostgresMaterializedViews env pg in
        r1.1 = None →
        let rk := create_repeatedly env k r1.2 in
        length rk.1 = k ∧
        pg_matviews rk.2 = pg_matviews r1.2 ∧
        (∀ e, Some e ∈ rk.1 → ∃ n msg, fault env n = Some msg ∧ e = ErrOther msg)).
  { intros k r1 Hnone. apply create_repeatedly_present.
    by apply ensure_matviews_all_there. }
  split_and!; [| exact Herr | apply ensure_matviews_present | exact Hrep |].
  - intros pmv _ [d Hd] r.
    pose proof (ensure_matview_outcome env pmv pg) as Ho. fold r in Ho.
    destruct Ho as [msg Hf|d' Hq Hd'|msg Hq Hd' Hf|Hq Hd']; cbn [fst snd];
      try congruence.
    + by rewrite Hf.
    + by rewrite Hq.
  - intros Hquiet k. cbn [create_repeatedly].
    specialize (Hrep k). cbn zeta in Hrep.
    destruct (createPostgresMaterializedViews env pg) as [e pg1] eqn:Hrun.
    destruct e as [e|].
    { destruct (Herr e eq_refl) as (n & msg & Hf & _). by rewrite Hquiet in Hf. }
    destruct (Hrep eq_refl) as (_ & Hmv & Herrs). cbn in *.
    destruct (create_repeatedly env k pg1) as [es pg2]. cbn in *.
    split; [|done]. constructor; [done|].
    apply Forall_forall. intros [e|] Hin; [|done].
    destruct (Herrs e Hin) as (n & msg & Hf & _). by rewrite Hquiet in Hf.
Qed.

Lemma createPostgresMaterializedViews_idempotent_witness :
  Forall (fun e => e = None) (create_repeatedly quiet 3 empty_pg).1 ∧
  pg_matviews (create_repeatedly quiet 3 empty_pg).2
    = pg_matviews (createPostgresMaterializedViews quiet empty_pg).2.
Proof.
  destruct (createPostgresMaterializedViews_idempotent quiet empty_pg)
    as (_ & _ & _ & _ & Hquiet).
  apply (Hquiet (fun _ => eq_refl) 2).
Defined.

(** ** Startup *)

(** The migrations touch no view and execute nothing. *)
Lemma auto_migrate_frame env models :
  ∀ pg, let r := auto_migrate env models pg in
    pg_matviews r.2 = pg_matviews pg ∧
    ∃ stmts, journal r.2 = journal pg ++ stmts ∧
             Forall (fun q => is_Exec q = false) stmts.
Proof.
  induction models as [|m rest IH]; intros pg r.
  { subst r; cbn. split; [done|]. exists []. by rewrite app_nil_r. }
  subst r. cbn [auto_migrate]. unfold send.
  destruct (fault env (length (journal pg))) as [msg|]; cbn.
  { split; [done|]. exists [AutoMigrate m]. split; [done | by repeat constructor]. }
  match goal with |- context [auto_migrate env rest ?pg1] =>
    destruct (IH pg1) as (Hmv & stmts & Hj & Hex) end.
  cbn in *. split; [done|]. exists (AutoMigrate m :: stmts).
  split; [by rewrite Hj, <-app_assoc | by constructor].
Qed.

(** A startup that succeeds has run [createPostgresMaterializedViews]
    to success on a store with the views it found, after statements
    none of which is an execution. *)
Lemma New_inv env dsn pg db pg' :
  New env dsn pg = (inr db, pg') →
  ∃ pg3 stmts0,
    pg_matviews pg3 = pg_matviews pg ∧
    journal pg3 = journal pg ++ stmts0 ∧
    Forall (fun q => is_Exec q = false) stmts0 ∧
    createPostgresMaterializedViews env pg3 = (None, pg').
Proof.
  unfold New. intros H.
  destruct (send env (Open dsn) pg) as [[?|] pg1] eqn:Hs; [done|].
  injection Hs as _ <-.
  match type of H with context [auto_migrate env migrated ?pg1] =>
    destruct (auto_migrate_frame env migrated pg1) as (Hmv2 & st2 & Hj2 & Hex2);
    destruct (auto_migrate env migrated pg1) as [[?|] pg2]; [done|] end.
  destruct (populate_suites_spec env testSuitePrefixes pg2)
    as (_ & st3 & _ & _ & _ & _ & Hmv3 & Hj3 & Hex3).
  fold (populateTestSuitesInDB env pg2) in Hmv3, Hj3.
  destruct (populateTestSuitesInDB env pg2) as [[?|] pg3]; [done|].
  destruct (createPostgresMaterializedViews env pg3) as [[?|] pg4] eqn:Hrun; [done|].
  injection H as _ <-. cbn in *.
  exists pg3, (Open dsn :: st2 ++ st3).
  split_and!; [congruence | | | done].
  - rewrite Hj3, Hj2. by rewrite <-!app_assoc.
  - constructor; [done|]. by apply Forall_app.
Qed.

(** C2, as the code has it.  On a startup that succeeds, for every
    entry of the catalog: if its view did not exist it has been
    created, by one execution, with the definition obtained from the
    entry's template by replacing its boundary placeholders (by
    expressions relative to NOW(), which the server resolves when it
    creates the view); if its view existed it has kept its definition.
    The only executions of the startup are those creations: no
    refresh is requested. *)
Theorem New_creates_missing_views
    (env : Env) (dsn : string) (pg : Postgres) (db : DB) (pg' : Postgres) :
  New env dsn pg = (inr db, pg') →
  ∃ stmts,
    journal pg' = journal pg ++ stmts ∧
    (∀ pmv, pmv ∈ PostgresMatViews →
       match pg_matviews pg !! Name pmv with
       | None =>
           ∃ kvs, map_to_list (ReplaceStrings pmv) ≡ₚ kvs ∧
                  pg_matviews pg' !! Name pmv
                    = Some (substitute kvs (Definition_ pmv)) ∧
                  Exec (create_matview_sql (Name pmv)
                          (substitute kvs (Definition_ pmv))) ∈ stmts
       | Some d => pg_matviews pg' !! Name pmv = Some d
       end) ∧
    (∀ sql, Exec sql ∈ stmts →
       ∃ pmv kvs, pmv ∈ PostgresMatViews ∧ pg_matviews pg !! Name pmv = None ∧
                  map_to_list (ReplaceStrings pmv) ≡ₚ kvs ∧
                  sql = create_matview_sql (Name pmv)
                          (substitute kvs (Definition_ pmv))) ∧
    (∀ name, ¬ refresh_requested name stmts).
Proof.
  intros (pg3 & stmts0 & Hmv & Hj & Hex & Hrun)%New_inv.
  destruct (ensure_matviews_creates env PostgresMatViews pg3)
    as (stmts & Hj' & Hexec & Hok).
  fold (createPostgresMaterializedViews env pg3) in Hj', Hok.
  rewrite Hrun in Hj', Hok. cbn in Hj', Hok. rewrite Hmv in Hexec, Hok.
  assert (Hcreates : ∀ sql, Exec sql ∈ stmts0 ++ stmts →
    ∃ pmv kvs, pmv ∈ PostgresMatViews ∧ pg_matviews pg !! Name pmv = None ∧
               map_to_list (ReplaceStrings pmv) ≡ₚ kvs ∧
               sql = create_matview_sql (Name pmv)
                       (substitute kvs (Definition_ pmv))).
  { intros sql [Hin|Hin]%elem_of_app; [|by apply Hexec].
    rewrite Forall_forall in Hex. by specialize (Hex _ Hin). }
  exists (stmts0 ++ stmts).
  split_and!; [by rewrite Hj', Hj, <-app_assoc | | exact Hcreates |].
  - intros pmv Hin.
    specialize (Hok eq_refl PostgresMatViews_NoDup pmv Hin).
    destruct (pg_matviews pg !! Name pmv) as [d|]; [done|].
    destruct Hok as (kvs & ? & ? & ?). exists kvs.
    split_and!; [done..|]. apply elem_of_app. by right.
  - intros name (sql & Hin & Hpre & _).
    destruct (Hcreates sql Hin) as (pmv & kvs & _ & _ & _ & ->).
    discriminate Hpre.
Qed.

Lemma New_creates_missing_views_witness :
  pg_matviews started !! "prow_test_report_7d_matview" = Some testReport7dResolved.
Proof.
  destruct (New_creates_missing_views quiet "host=localhost" empty_pg
              {| BatchSize := 1024 |} started)
    as (stmts & _ & Hviews & _).
  { vm_compute. reflexivity. }
  specialize (Hviews testReport7d).
  change (pg_matviews empty_pg !! Name testReport7d)
    with (@None string) in Hviews.
  destruct Hviews as (kvs & Hperm & Hdef & _); [by left|].
  change (Name testReport7d) with "prow_test_report_7d_matview" in Hdef.
  rewrite Hdef. f_equal.
  apply (substitute_testReport7d testReport7d kvs);
    [by left | reflexivity | exact Hperm].
Defined.

(** The startup as the design document words it fails on the code: a
    second startup, which finds the four views of the first, sends no
    execution at all, hence no refresh of the 7-day test report. *)
Lemma startup_as_specified_counterexample :
  ¬ startup_as_specified quiet "host=localhost" started.
Proof.
  intros H.
  specialize (H {| BatchSize := 1024 |}
                (New quiet "host=localhost" started).2).
  assert (Hno : Forall (fun q => is_Exec q = false)
                  (drop (length (journal started))
                     (journal (New quiet "host=localhost" started).2))).
  { vm_compute. repeat constructor. }
  specialize (H ltac:(vm_compute; reflexivity) testReport7d ltac:(by left)).
  destruct (pg_matviews started !! Name testReport7d) eqn:Hd;
    [|by vm_compute in Hd].
  destruct H as (sql & Hin & _).
  rewrite Forall_forall in Hno. by specialize (Hno _ Hin).
Qed.

End DbFacts.

Module NormalizerFacts.

Import GoStrings Db Normalizer.

(** Appending to a non-empty string, one byte at a time. *)
Lemma app_String (a : Ascii.ascii) (s rest : string) :
  String a s +:+ rest = String a (s +:+ rest).
Proof. reflexivity. Qed.

(** A string is its prefix followed by what remains after it. *)
Lemma HasPrefix_split (pre : string) :
  ∀ s, HasPrefix s pre = true → s = pre +:+ drop_bytes (String.length pre) s.
Proof.
  induction pre as [|a pre IH]; intros s H; [by destruct s|].
  destruct s as [|b s]; [done|]. cbn in H.
  destruct (Ascii.eqb_spec a b) as [->|]; [|done].
  rewrite app_String. cbn. f_equal. by apply IH.
Qed.

(** The dot counts for one byte. *)
Lemma length_app_dot (s : string) :
  String.length (s +:+ ".") = String.length s + 1.
Proof. induction s as [|a s IH]; [done|]. rewrite app_String. cbn. by rewrite IH. Qed.

(** The suite, the dot and the rest, however they are grouped. *)
Lemma app_assoc_dot (s rest : string) :
  (s +:+ ".") +:+ rest = s +:+ "." +:+ rest.
Proof. induction s as [|a s IH]; [done|]. by rewrite !app_String, IH. Qed.

(** What the fold of [longest] returns: a candidate (or the starting
    value) that no candidate exceeds in length. *)
Lemma foldl_longer (l : list string) :
  ∀ acc,
    match foldl longer acc l with
    | None => acc = None ∧ l = []
    | Some s =>
        (acc = Some s ∨ s ∈ l) ∧
        (∀ p, p ∈ l → String.length p ≤ String.length s) ∧
        (∀ a, acc = Some a → String.length a ≤ String.length s)
    end.
Proof.
  induction l as [|x l IH]; intros acc; cbn [foldl].
  - destruct acc as [a|]; [|done].
    split; [by left|]. split; [by intros p ?%elem_of_nil|].
    by intros ? [= ->].
  - specialize (IH (longer acc x)).
    destruct (foldl longer (longer acc x) l) as [s|].
    + destruct IH as (Hin & Hmax & Hacc). unfold longer in Hin, Hacc.
      split; [|split].
      * destruct Hin as [Hin|Hin]; [|right; by right].
        destruct acc as [a|].
        -- destruct (String.length a <? String.length x); injection Hin as <-;
             [right; by left | by left].
        -- injection Hin as <-. right; by left.
      * intros p [->|Hp]%elem_of_cons; [|by apply Hmax].
        destruct acc as [a|]; [|by apply Hacc].
        destruct (String.length a <? String.length x) eqn:Hlt;
          [by apply Hacc|].
        apply Nat.ltb_ge in Hlt. specialize (Hacc a eq_refl). lia.
      * intros a ->.
        destruct (String.length a <? String.length x) eqn:Hlt;
          [|by apply Hacc].
        apply Nat.ltb_lt in Hlt. specialize (Hacc x eq_refl). lia.
    + destruct IH as [Hacc _]. unfold longer in Hacc.
      destruct acc as [a|]; [|done].
      by destruct (String.length a <? String.length x).
Qed.

(** For any registry: a name that some registered suite matches is
    split at the longest registered suite that matches it. *)
Lemma normalize_longest (registry : list string) (raw suite : string) :
  suite ∈ registry → matches raw suite = true →
  ∃ s rest, normalize registry raw = (Some s, rest) ∧
            s ∈ registry ∧ raw = s +:+ "." +:+ rest ∧
            ∀ p, p ∈ registry → matches raw p = true →
                 String.length p ≤ String.length s.
Proof.
  intros Hin Hm. unfold normalize.
  pose proof (foldl_longer
                (filter (fun suite => matches raw suite = true) registry) None) as H.
  unfold longest.
  destruct (foldl longer None _) as [s|].
  - destruct H as ([?|Hs] & Hmax & _); [done|].
    apply list_elem_of_filter in Hs as [Hsm Hs].
    eexists _, _. split; [done|]. split; [done|]. split.
    + apply HasPrefix_split in Hsm.
      rewrite length_app_dot, app_assoc_dot in Hsm. done.
    + intros p Hp Hpm. apply Hmax. by apply list_elem_of_filter.
  - destruct H as [_ Hnil].
    assert (suite ∈ filter (fun suite => matches raw suite = true) registry)
      as Hc by by apply list_elem_of_filter.
    rewrite Hnil in Hc. by apply elem_of_nil in Hc.
Qed.

(** For any registry: a name that no registered suite matches is
    returned as it is, with no suite. *)
Lemma normalize_unmatched (registry : list string) (raw : string) :
  (∀ p, p ∈ registry → matches raw p = false) →
  normalize registry raw = (None, raw).
Proof.
  intros Hno. unfold normalize.
  replace (filter (fun suite => matches raw suite = true) registry) with (@nil string);
    [done|].
  symmetry. induction registry as [|x l IH]; [done|].
  rewrite filter_cons. destruct (decide (matches raw x = true)) as [Hx|_].
  - rewrite Hno in Hx; [done | by left].
  - apply IH. intros p Hp. apply Hno. by right.
Qed.

(** When prefixes overlap the longest registered one wins. *)
Example normalize_overlap :
  normalize ["a"; "a.b"; "c"] "a.b.some test" = (Some "a.b", "some test").
Proof. reflexivity. Qed.

(** C7.  With the registry [testSuitePrefixes]: a raw name made of a
    registered suite, a dot and a remainder is split into that suite
    and the remainder; the suite chosen is the longest registered
    suite that matches; a name that no registered suite matches is
    kept verbatim with no suite. *)
Theorem normalize_testSuitePrefixes (raw : string) :
  (∀ suite rest, suite ∈ testSuitePrefixes → raw = suite +:+ "." +:+ rest →
     normalize testSuitePrefixes raw = (Some suite, rest)) ∧
  (∀ suite, suite ∈ testSuitePrefixes → matches raw suite = true →
     ∃ s rest, normalize testSuitePrefixes raw = (Some s, rest) ∧
               s ∈ testSuitePrefixes ∧ raw = s +:+ "." +:+ rest ∧
               ∀ p, p ∈ testSuitePrefixes → matches raw p = true →
                    String.length p ≤ String.length s) ∧
  ((∀ suite, suite ∈ testSuitePrefixes → matches raw suite = false) →
     normalize testSuitePrefixes raw = (None, raw)).
Proof.
  split; [|split].
  - intros suite rest Hin ->. unfold testSuitePrefixes in Hin.
    repeat (apply elem_of_cons in Hin as [-> | Hin]);
      [reflexivity .. | by apply elem_of_nil in Hin].
  - intros suite. apply normalize_longest.
  - apply normalize_unmatched.
Qed.

Lemma normalize_testSuitePrefixes_witness :
  normalize testSuitePrefixes "openshift-tests.Some Test Name"
    = (Some "openshift-tests", "Some Test Name") ∧
  normalize testSuitePrefixes "openshift-tests-upgrade.Some Test Name"
    = (Some "openshift-tests-upgrade", "Some Test Name") ∧
  normalize testSuitePrefixes "[sig-arch] Some Test Name"
    = (None, "[sig-arch] Some Test Name").
Proof.
  split; [|split].
  - apply (normalize_testSuitePrefixes "openshift-tests.Some Test Name");
      [by left | reflexivity].
  - apply (normalize_testSuitePrefixes "openshift-tests-upgrade.Some Test Name");
      [right; by left | reflexivity].
  - apply (normalize_testSuitePrefixes "[sig-arch] Some Test Name").
    intros suite Hin. unfold testSuitePrefixes in Hin.
    repeat (apply elem_of_cons in Hin as [-> | Hin]);
      [reflexivity .. | by apply elem_of_nil in Hin].
Defined.

End NormalizerFacts.

Module LoadFacts.

Import LoadCommand LoadSpec.

Section Facts.

Variable c : Collaborators.

(** A name adds the loader it names, if it names one. *)
Lemma select_loader_inr i l acc ls :
  select_loader c i l acc = inr ls →
  ls = acc ++ option_list (loader_named l).
Proof.
  unfold select_loader, loader_named.
  repeat case_decide; simplify_eq; cbn;
    repeat case_match; intros; simplify_eq; by rewrite ?app_nil_r.
Qed.

(** The loaders selected are those the names of [f.Loaders] name, in
    the order of the flag. *)
Lemma select_loaders_inr names :
  ∀ i acc ls, select_loaders c i names acc = inr ls →
              ls = acc ++ omap loader_named names.
Proof.
  induction names as [|l rest IH]; intros i acc ls; cbn.
  - intros [= <-]. by rewrite app_nil_r.
  - destruct (select_loader c i l acc) as [err|acc'] eqn:Hsel; [done|].
    intros ->%IH. apply select_loader_inr in Hsel as ->.
    destruct (loader_named l); cbn; by rewrite <-?app_assoc, ?app_nil_r.
Qed.

(** The coordinator's run in terms of the reports of the loaders. *)
Lemma run_loaders_reports ls :
  ∀ st,
    run_loaders c ls st =
    (concat ((fun r => r.2.2) <$> loader_reports c ls (committed st)),
     {| committed :=
          committed st ++
            concat ((fun r => r.2.1) <$> loader_reports c ls (committed st));
        refreshed := refreshed st;
        events := events st ++ load_events ls |}).
Proof.
  induction ls as [|l rest IH]; intros st.
  { cbn. rewrite !app_nil_r. by destruct st. }
  cbn [run_loaders loader_reports].
  change (committed (record (LoadStarted l) st)) with (committed st).
  destruct (loader_Load c l (committed st)) as [rows es] eqn:Hl.
  rewrite IH. cbn. by rewrite <-!app_assoc.
Qed.

(** When nothing stops [RunE] before the coordinator, it runs the
    loaders, then [RefreshData], then decides its result. *)
Lemma RunE_ran f ls st :
  ran c f ls →
  RunE c f st =
  (match (run_loaders c ls st).1 with
   | [] => None
   | _ => Some loading_failed
   end,
   RefreshData (run_loaders c ls st).2).
Proof.
  intros (Hdb & Hschema & Hcfg & Hsel). unfold RunE, Load.
  rewrite Hdb, Hschema, Hcfg, Hsel. cbn.
  destruct (run_loaders c ls st) as [es st1]. cbn.
  by destruct es.
Qed.

(** Otherwise it returns an error and leaves the store as it was. *)
Lemma RunE_stopped f st :
  (∀ ls, ¬ ran c f ls) → ∃ e, RunE c f st = (Some e, st).
Proof.
  intros Hnot. unfold RunE.
  destruct (GetDBClient c) eqn:Hdb; [by eexists|].
  destruct (if InitDatabase f then UpdateSchema c else None) eqn:Hs; [by eexists|].
  destruct (GetConfig c) eqn:Hcfg; [by eexists|].
  destruct (select_loaders c 0 (Loaders f) []) as [e|ls] eqn:Hsel; [by eexists|].
  by destruct (Hnot ls).
Qed.

(** C4.  When [RunE] has run the loaders, it returns an error if and
    only if the coordinator's [Errors()] is not empty after its
    [Load]; and whatever it returns, the store it leaves holds
    every row that was there before and every row that any loader
    committed: nothing is rolled back. *)
Theorem RunE_fails_iff_errors
    (f : LoadFlags) (st : Store) (ls : list DataLoader) :
  ran c f ls →
  let loaded := Load c (loaderwithmetrics_New ls) st in
  let r := RunE c f st in
  (is_Some r.1 ↔ Errors loaded.1 ≠ []) ∧
  committed r.2 = committed loaded.2 ∧
  committed st `prefix_of` committed r.2 ∧
  (∀ l rows es row,
     (l, (rows, es)) ∈ loader_reports c ls (committed st) →
     row ∈ rows → row ∈ committed r.2).
Proof.
  intros Hran loaded r. subst loaded r.
  rewrite (RunE_ran f ls st Hran). unfold Load, Errors.
  cbn [loaders loaderwithmetrics_New].
  rewrite run_loaders_reports. cbn.
  split_and!.
  - destruct (concat _); split; [by intros [? ?] | done | done | by eexists].
  - done.
  - by eexists.
  - intros l rows es row Hin Hrow. apply elem_of_app. right.
    apply list_elem_of_In, in_concat. exists rows.
    split; [|by apply list_elem_of_In].
    apply list_elem_of_In, list_elem_of_fmap. by exists (l, (rows, es)).
Qed.

(** C5.  The events of a run of [RunE]: a refresh never comes before
    the start or the end of a loader's [Load]; and when [RunE] has
    run the loaders, the events are exactly the [Load] of each
    selected loader, in the order of [f.Loaders], followed by one
    call of [RefreshData], whether or not loaders reported fatal
    errors, in which case [RunE] returns its error with the refresh
    done. *)
Theorem RefreshData_after_loaders (f : LoadFlags) (st : Store) :
  let r := RunE c f st in
  ∃ evs,
    events r.2 = events st ++ evs ∧
    (∀ i j l,
       evs !! i = Some (LoadStarted l) ∨ evs !! i = Some (LoadFinished l) →
       evs !! j = Some RefreshDataCalled → i < j) ∧
    (∀ ls, ran c f ls →
       ls = omap loader_named (Loaders f) ∧
       evs = load_events ls ++ [RefreshDataCalled] ∧
       ((run_loaders c ls st).1 ≠ [] →
          r.1 = Some loading_failed ∧
          events r.2 = events st ++ load_events ls ++ [RefreshDataCalled])).
Proof.
  intros r. subst r.
  destruct (select_loaders c 0 (Loaders f) []) as [e|ls] eqn:Hsel.
  { destruct (RunE_stopped f st) as [e' ->].
    { intros ls (_ & _ & _ & Hls). congruence. }
    exists []. cbn. rewrite app_nil_r. split_and!; [done| |].
    - intros i j l _ Hj. by rewrite lookup_nil in Hj.
    - intros ls (_ & _ & _ & Hls). congruence. }
  destruct (decide (GetDBClient c = None ∧
                    (if InitDatabase f then UpdateSchema c else None) = None ∧
                    GetConfig c = None)) as [(Hdb & Hs & Hcfg)|Hstop].
  - assert (Hran : ran c f ls) by done.
    rewrite (RunE_ran f ls st Hran), run_loaders_reports. cbn.
    exists (load_events ls ++ [RefreshDataCalled]).
    split_and!; [by rewrite <-app_assoc | |].
    + intros i j l Hi Hj.
      assert (i < length (load_events ls)) as Hlt.
      { destruct (decide (i < length (load_events ls))) as [|Hge]; [done|].
        apply Nat.nlt_ge in Hge.
        rewrite !lookup_app_r in Hi by done.
        destruct (i - length (load_events ls)) as [|?]; cbn in Hi;
          by destruct Hi. }
      assert (¬ j < length (load_events ls)); [|lia].
      intros Hj'. rewrite lookup_app_l in Hj by done.
      apply list_elem_of_lookup_2 in Hj. unfold load_events in Hj.
      apply list_elem_of_bind in Hj as (l' & Hin & _).
      by repeat (apply elem_of_cons in Hin as [?|Hin]; [done|]);
        apply elem_of_nil in Hin.
    + intros ls' Hran'. destruct Hran' as (_ & _ & _ & Hsel').
      assert (ls' = ls) as -> by congruence.
      split_and!; [by apply select_loaders_inr in Hsel | done |].
      intros Herrs. rewrite run_loaders_reports in Herrs. cbn in Herrs.
      split; [|by rewrite <-app_assoc].
      by destruct (concat _).
  - destruct (RunE_stopped f st) as [e' ->].
    { intros ls' (? & ? & ? & _). by apply Hstop. }
    exists []. cbn. rewrite app_nil_r. split_and!; [done| |].
    + intros i j l _ Hj. by rewrite lookup_nil in Hj.
    + intros ls' (? & ? & ? & _). by destruct Hstop.
Qed.

End Facts.

Lemma RunE_fails_iff_errors_witness :
  is_Some (RunE jira_down default_flags empty_store).1 ∧
  ("prow_job_runs", "1001") ∈ committed (RunE jira_down default_flags empty_store).2.
Proof.
  destruct (RunE_fails_iff_errors jira_down default_flags empty_store default_loaders)
    as (Hiff & _ & _ & Hkept).
  { by split_and!. }
  split.
  - apply Hiff. discriminate.
  - apply (Hkept ProwLoader [("prow_job_runs", "1001")] [] ("prow_job_runs", "1001"));
      by left.
Defined.

Lemma RefreshData_after_loaders_witness :
  (RunE jira_down default_flags empty_store).1 = Some loading_failed ∧
  events (RunE jira_down default_flags empty_store).2
    = load_events default_loaders ++ [RefreshDataCalled].
Proof.
  destruct (RefreshData_after_loaders jira_down default_flags empty_store)
    as (evs & _ & _ & Hran).
  destruct (Hran default_loaders) as (_ & _ & Hfail).
  { by split_and!. }
  apply Hfail. discriminate.
Defined.

End LoadFacts.

(** * Further properties of the code *)

(** ** Package [db] *)

Module DbMore.

Import GoStrings Db DbSpec DbFacts DbMoreSpec.

(** ** Stages of [New] and what they leave alone *)

Lemma same_data_refl pg : same_data pg pg.
Proof. by split_and!. Qed.

Lemma same_data_trans pg1 pg2 pg3 :
  same_data pg1 pg2 → same_data pg2 pg3 → same_data pg1 pg3.
Proof. intros (? & ? & ?) (? & ? & ?). split_and!; congruence. Qed.

(** [New] ends in one of its five ways. *)
Lemma New_outcome_holds env dsn pg : New_outcome env dsn pg (New env dsn pg).
Proof.
  unfold New.
  destruct (send env (Open dsn) pg) as [[e1|] pg1] eqn:H1;
    [by eapply New_open_failed|].
  destruct (auto_migrate env migrated pg1) as [[e2|] pg2] eqn:H2;
    [by eapply New_migration_failed|].
  destruct (populateTestSuitesInDB env pg2) as [[e3|] pg3] eqn:H3;
    [by eapply New_seeding_failed|].
  destruct (createPostgresMaterializedViews env pg3) as [[e4|] pg4] eqn:H4;
    [by eapply New_views_failed | by eapply New_started].
Qed.

(** The migrations up to the first failure: the statements sent, and
    the data left alone. *)
Lemma auto_migrate_run env models :
  ∀ pg, let r := auto_migrate env models pg in
    same_data pg r.2 ∧
    match r.1 with
    | None =>
        journal r.2 = journal pg ++ (AutoMigrate <$> models) ∧
        ∀ i, i < length models → fault env (length (journal pg) + i) = None
    | Some e =>
        ∃ k msg, k < length models ∧ e = ErrOther msg ∧
                 fault env (length (journal pg) + k) = Some msg ∧
                 (∀ i, i < k → fault env (length (journal pg) + i) = None) ∧
                 journal r.2 = journal pg ++ take (S k) (AutoMigrate <$> models)
    end.
Proof.
  induction models as [|m rest IH]; intros pg r.
  { subst r; cbn. split; [apply same_data_refl|]. split; [by rewrite app_nil_r|].
    intros i Hi. lia. }
  subst r. cbn [auto_migrate]. unfold send.
  destruct (fault env (length (journal pg))) as [msg|] eqn:Hf; cbn [fmap option_fmap option_map fst snd].
  { cbn. split; [by split_and!|]. exists 0, msg. rewrite Nat.add_0_r.
    split_and!; [lia | done | done | intros; lia | done]. }
  cbn.
  match goal with |- context [auto_migrate env rest ?pg1] =>
    specialize (IH pg1); destruct (auto_migrate env rest pg1) as [e pg2] end.
  cbn in IH. rewrite length_app in IH. cbn in IH.
  destruct IH as [(Hv & Hs & Hr) IH]. cbn in Hv, Hs, Hr. cbn [fst snd].
  split; [by split_and!|].
  destruct e as [e|].
  - destruct IH as (k & msg & Hk & -> & Hfk & Hbefore & Hj).
    exists (S k), msg. split_and!; [lia | done | | | ].
    + by replace (length (journal pg) + S k) with (length (journal pg) + 1 + k) by lia.
    + intros [|i] Hi; [by rewrite Nat.add_0_r|].
      replace (length (journal pg) + S i) with (length (journal pg) + 1 + i) by lia.
      apply Hbefore. lia.
    + rewrite Hj. by rewrite <-app_assoc.
  - destruct IH as [Hj Hnone]. split; [by rewrite Hj, <-app_assoc|].
    intros [|i] Hi; [by rewrite Nat.add_0_r|].
    replace (length (journal pg) + S i) with (length (journal pg) + 1 + i) by lia.
    apply Hnone. lia.
Qed.

(** The seeding leaves the views and the other tables alone, and sends
    lookups and creations of suites only; it creates a suite only for a
    name of its list that had no row. *)
Lemma populate_suites_journal env names :
  ∀ pg, let r := populate_suites env names pg in
    pg_matviews r.2 = pg_matviews pg ∧
    relations r.2 = relations pg ∧
    ∃ stmts,
      journal r.2 = journal pg ++ stmts ∧
      Forall (fun q => is_Exec q = false) stmts ∧
      (∀ name, CreateSuite name ∈ stmts →
               name ∈ names ∧ name ∉ suite_names pg) ∧
      (∀ e, r.1 = Some e →
            (∃ msg, e = ErrOther msg) ∨
            (∃ name msg, name ∈ names ∧
               e = ErrWrapped ("error loading suite into db: " +:+ name)
                              (ErrOther msg))).
Proof.
  induction names as [|name rest IH]; intros pg r.
  { subst r; cbn. split_and!; [done..|]. exists []. rewrite app_nil_r.
    split_and!; [done | constructor | by intros ? ?%elem_of_nil | done]. }
  destruct (populate_suites_cons env name rest pg) as (o & Ho & Heq).
  subst r. rewrite Heq. clear Heq.
  destruct Ho as [msg Hf|s Hs Hname|msg Hnot Hf|Hnot]; cbn [fst snd].
  - split_and!; [done..|]. exists [FirstSuite name].
    split_and!; [done | by repeat constructor | | ].
    + by intros n [[=]|?%elem_of_nil]%elem_of_cons.
    + intros e [= <-]. left. by eexists.
  - match goal with |- context [populate_suites env rest ?pg1] =>
      destruct (IH pg1) as (Hmv & Hrel & stmts & Hj & Hex & Hcr & Herr) end.
    cbn in *. split_and!; [done..|]. exists (FirstSuite name :: stmts).
    split_and!; [by rewrite Hj, <-app_assoc | by constructor | |].
    + intros n [[=]|Hin]%elem_of_cons. destruct (Hcr n Hin). split; [by right | done].
    + intros e He. destruct (Herr e He) as [?|(n & msg & ? & ?)]; [by left|].
      right. exists n, msg. split; [by right | done].
  - split_and!; [done..|]. exists [FirstSuite name; CreateSuite name].
    split_and!; [done | by repeat constructor | | ].
    + intros n [[=]|[[= ->]|[]%elem_of_nil]%elem_of_cons]%elem_of_cons.
      split; [by left | done].
    + intros e [= <-]. right. exists name, msg. split; [by left | done].
  - match goal with |- context [populate_suites env rest ?pg1] =>
      destruct (IH pg1) as (Hmv & Hrel & stmts & Hj & Hex & Hcr & Herr) end.
    cbn in *. split_and!; [done..|].
    exists (FirstSuite name :: CreateSuite name :: stmts).
    split_and!; [by rewrite Hj, <-app_assoc | by repeat constructor | |].
    + intros n [[=]|[[= ->]|Hin]%elem_of_cons]%elem_of_cons.
      * split; [by left | done].
      * destruct (Hcr n Hin) as [? Hfresh]. split; [by right|].
        intros Hc. apply Hfresh. unfold suite_names in *. cbn.
        rewrite fmap_app. apply elem_of_app. by left.
    + intros e He. destruct (Herr e He) as [?|(n & msg & ? & ?)]; [by left|].
      right. exists n, msg. split; [by right | done].
Qed.

(** The loop over the catalog leaves the other tables alone. *)
Lemma ensure_matviews_relations env views :
  ∀ pg, relations (ensure_matviews env views pg).2 = relations pg.
Proof.
  induction views as [|pmv rest IH]; intros pg; [done|].
  destruct (ensure_matviews_cons env pmv rest pg) as (o & Ho & Heq).
  rewrite Heq. clear Heq.
  destruct Ho as [msg Hf|d Hq Hd|msg Hq Hd Hf|Hq Hd]; cbn [fst snd];
    [done | by rewrite IH | done | by rewrite IH].
Qed.

(** The loop over the catalog sends existence queries and executions
    only. *)
Lemma ensure_matviews_sends env views :
  ∀ pg, ∃ stmts,
    journal (ensure_matviews env views pg).2 = journal pg ++ stmts ∧
    Forall (fun q => is_view_statement q = true) stmts.
Proof.
  induction views as [|pmv rest IH]; intros pg.
  { exists []. cbn. by rewrite app_nil_r. }
  destruct (ensure_matviews_cons env pmv rest pg) as (o & Ho & Heq).
  rewrite Heq. clear Heq.
  destruct Ho as [msg Hf|d Hq Hd|msg Hq Hd Hf|Hq Hd]; cbn [fst snd].
  - eexists [_]. split; [done | by repeat constructor].
  - match goal with |- context [ensure_matviews env rest ?pg1] =>
      destruct (IH pg1) as (stmts & Hj & Hall) end.
    cbn in Hj. eexists (_ :: stmts).
    split; [by rewrite Hj, <-app_assoc | by constructor].
  - eexists [_; _]. split; [done | by repeat constructor].
  - match goal with |- context [ensure_matviews env rest ?pg1] =>
      destruct (IH pg1) as (stmts & Hj & Hall) end.
    cbn in Hj. eexists (_ :: _ :: stmts).
    split; [by rewrite Hj, <-app_assoc | by repeat constructor].
Qed.

(** A startup that returns a client has seeded every suite and created
    every view, and has removed nothing. *)
Lemma New_ready env dsn pg db pg' :
  New env dsn pg = (inr db, pg') →
  (∀ name, name ∈ testSuitePrefixes → name ∈ suite_names pg') ∧
  (∀ pmv, pmv ∈ PostgresMatViews → is_Some (pg_matviews pg' !! Name pmv)) ∧
  suites pg `prefix_of` suites pg' ∧
  pg_matviews pg ⊆ pg_matviews pg' ∧
  relations pg' = relations pg.
Proof.
  intros H. pose proof (New_outcome_holds env dsn pg) as Ho. rewrite H in Ho.
  inversion Ho as [| | | |pg1 pg2 pg3 pg4 H1 H2 H3 H4]; subst.
  injection H1 as _ <-.
  pose proof (auto_migrate_run env migrated
                (set_journal (journal pg ++ [Open dsn]) pg)) as [(Hv2 & Hs2 & Hr2) _].
  rewrite H2 in Hv2, Hs2, Hr2. cbn in Hv2, Hs2, Hr2.
  destruct (populate_suites_spec env testSuitePrefixes pg2)
    as (added & _ & Hsu & _ & _ & Hok & Hmv3 & _).
  pose proof (populate_suites_journal env testSuitePrefixes pg2) as (_ & Hr3 & _).
  fold (populateTestSuitesInDB env pg2) in Hsu, Hok, Hmv3, Hr3.
  rewrite H3 in Hsu, Hok, Hmv3, Hr3. cbn in Hsu, Hok, Hmv3, Hr3.
  destruct (ensure_matviews_frame env PostgresMatViews pg3)
    as (_ & _ & Hs4 & Hsub & _).
  pose proof (ensure_matviews_all_there env PostgresMatViews pg3) as Hall.
  pose proof (ensure_matviews_relations env PostgresMatViews pg3) as Hr4.
  fold (createPostgresMaterializedViews env pg3) in Hs4, Hsub, Hall, Hr4.
  rewrite H4 in Hs4, Hsub, Hall, Hr4. cbn in Hs4, Hsub, Hall, Hr4.
  split_and!.
  - intros name Hin. unfold suite_names. rewrite Hs4. by apply Hok.
  - by apply Hall.
  - rewrite Hs4, Hsu, Hs2. by eexists.
  - by rewrite <-Hv2, <-Hmv3.
  - congruence.
Qed.

(** On a store that has every suite and every view, a startup writes
    nothing, however it ends. *)
Lemma New_on_ready env dsn pg :
  (∀ name, name ∈ testSuitePrefixes → name ∈ suite_names pg) →
  (∀ pmv, pmv ∈ PostgresMatViews → is_Some (pg_matviews pg !! Name pmv)) →
  let r := New env dsn pg in
  same_data pg r.2 ∧
  ∃ stmts, journal r.2 = journal pg ++ stmts ∧
           Forall (fun q => is_write q = false) stmts.
Proof.
  intros Hsuites Hviews r. subst r.
  pose proof (New_outcome_holds env dsn pg) as Ho.
  assert (Hmig : ∀ pg1 e pg2,
    send env (Open dsn) pg = (None, pg1) →
    auto_migrate env migrated pg1 = (e, pg2) →
    same_data pg pg2 ∧
    ∃ stmts, journal pg2 = journal pg ++ stmts ∧
             Forall (fun q => is_write q = false) stmts).
  { intros pg1 e pg2 H1 H2. injection H1 as _ <-.
    pose proof (auto_migrate_run env migrated
                  (set_journal (journal pg ++ [Open dsn]) pg)) as [Hd Hj].
    rewrite H2 in Hd, Hj. cbn [fst snd] in Hd, Hj. split; [done|].
    assert (Hw : ∀ k, Forall (fun q => is_write q = false)
                        (take k (AutoMigrate <$> migrated))).
    { intros k. apply Forall_take. by repeat constructor. }
    destruct e as [e|].
    - destruct Hj as (k & msg & _ & _ & _ & _ & Hj). cbn [journal set_journal] in Hj.
      eexists (Open dsn :: take (S k) _).
      split; [by rewrite Hj, <-app_assoc|]. constructor; [done | apply Hw].
    - destruct Hj as [Hj _]. cbn [journal set_journal] in Hj. eexists (Open dsn :: _).
      split; [by rewrite Hj, <-app_assoc|]. by repeat constructor. }
  assert (Hseed : ∀ pg2 e pg3,
    same_data pg pg2 →
    populateTestSuitesInDB env pg2 = (e, pg3) →
    same_data pg2 pg3 ∧
    ∃ stmts, journal pg3 = journal pg2 ++ stmts ∧
             Forall (fun q => is_write q = false) stmts).
  { intros pg2 e pg3 (Hv & Hs & Hr) H3.
    assert (Hall2 : ∀ name, name ∈ testSuitePrefixes → name ∈ suite_names pg2).
    { intros name Hin. unfold suite_names. rewrite Hs. by apply Hsuites. }
    destruct (populate_suites_spec env testSuitePrefixes pg2)
      as (added & _ & Hsu & _ & Hadded & _).
    pose proof (populate_suites_journal env testSuitePrefixes pg2)
      as (Hmv & Hrel & stmts & Hj & Hex & Hcr & _).
    fold (populateTestSuitesInDB env pg2) in Hsu, Hmv, Hrel, Hj.
    rewrite H3 in Hsu, Hmv, Hrel, Hj. cbn in Hsu, Hmv, Hrel, Hj.
    assert (added = []) as ->.
    { destruct added as [|s added]; [done|].
      destruct (Hadded s) as [Hin Hnot]; [left|]. by destruct Hnot; apply Hall2. }
    rewrite app_nil_r in Hsu.
    split; [by split_and!|].
    exists stmts. split; [done|].
    apply Forall_forall. intros q Hq.
    destruct q as [| | |sql| |name|]; try done.
    - rewrite Forall_forall in Hex. by specialize (Hex _ Hq).
    - destruct (Hcr name Hq) as [Hin Hfresh]. by destruct Hfresh; apply Hall2. }
  assert (Hview : ∀ pg3 e pg4,
    same_data pg pg3 →
    createPostgresMaterializedViews env pg3 = (e, pg4) →
    same_data pg3 pg4 ∧
    ∃ stmts, journal pg4 = journal pg3 ++ stmts ∧
             Forall (fun q => is_write q = false) stmts).
  { intros pg3 e pg4 (Hv & Hs & Hr) H4.
    destruct (ensure_matviews_present env PostgresMatViews pg3)
      as (Hmv & stmts & Hj & Hex).
    { intros pmv Hin. rewrite Hv. by apply Hviews. }
    destruct (ensure_matviews_frame env PostgresMatViews pg3)
      as (stmts' & Hj' & Hs4 & _).
    pose proof (ensure_matviews_relations env PostgresMatViews pg3) as Hr4.
    fold (createPostgresMaterializedViews env pg3) in Hmv, Hj, Hj', Hs4, Hr4.
    rewrite H4 in Hmv, Hj, Hj', Hs4, Hr4. cbn in Hmv, Hj, Hj', Hs4, Hr4.
    split; [by split_and!|].
    exists stmts. split; [done|].
    destruct (ensure_matviews_sends env PostgresMatViews pg3) as (st & Hst & Hcount).
    fold (createPostgresMaterializedViews env pg3) in Hst.
    rewrite H4 in Hst. cbn in Hst. rewrite Hj in Hst.
    apply app_inv_head in Hst as <-.
    apply Forall_forall. intros q Hq.
    rewrite Forall_forall in Hex, Hcount.
    specialize (Hex _ Hq). specialize (Hcount _ Hq).
    by destruct q. }
  inversion Ho as [err pg1 H1|pg1 err pg2 H1 H2|pg1 pg2 err pg3 H1 H2 H3
                  |pg1 pg2 pg3 err pg4 H1 H2 H3 H4|pg1 pg2 pg3 pg4 H1 H2 H3 H4];
    subst; cbn [fst snd].
  - injection H1 as _ <-. split; [by split_and!|].
    exists [Open dsn]. split; [done | by repeat constructor].
  - by eapply Hmig.
  - destruct (Hmig _ _ _ H1 H2) as (Hd2 & st2 & Hj2 & Hw2).
    destruct (Hseed _ _ _ Hd2 H3) as (Hd3 & st3 & Hj3 & Hw3).
    split; [by eapply same_data_trans|].
    exists (st2 ++ st3). split; [by rewrite Hj3, Hj2, <-app_assoc|].
    by apply Forall_app.
  - destruct (Hmig _ _ _ H1 H2) as (Hd2 & st2 & Hj2 & Hw2).
    destruct (Hseed _ _ _ Hd2 H3) as (Hd3 & st3 & Hj3 & Hw3).
    pose proof (same_data_trans _ _ _ Hd2 Hd3) as Hd23.
    destruct (Hview _ _ _ Hd23 H4) as (Hd4 & st4 & Hj4 & Hw4).
    split; [by eapply same_data_trans|].
    exists (st2 ++ st3 ++ st4).
    split; [by rewrite Hj4, Hj3, Hj2, <-!app_assoc|].
    by repeat apply Forall_app_2.
  - destruct (Hmig _ _ _ H1 H2) as (Hd2 & st2 & Hj2 & Hw2).
    destruct (Hseed _ _ _ Hd2 H3) as (Hd3 & st3 & Hj3 & Hw3).
    pose proof (same_data_trans _ _ _ Hd2 Hd3) as Hd23.
    destruct (Hview _ _ _ Hd23 H4) as (Hd4 & st4 & Hj4 & Hw4).
    split; [by eapply same_data_trans|].
    exists (st2 ++ st3 ++ st4).
    split; [by rewrite Hj4, Hj3, Hj2, <-!app_assoc|].
    by repeat apply Forall_app_2.
Qed.

(** ** Startup *)





(** X3.  After a [New] that returned a client, another [New] on the
    same database, whatever fails during it, sends no execution and
    creates no suite, and leaves views, suites and tables as they
    are. *)
Theorem New_again_writes_nothing
    (env : Env) (dsn : string) (pg : Postgres) (db : DB) (pg' : Postgres) :
  New env dsn pg = (inr db, pg') →
  ∀ env' dsn',
    let r := New env' dsn' pg' in
    same_data pg' r.2 ∧
    ∃ stmts, journal r.2 = journal pg' ++ stmts ∧
             Forall (fun q => is_write q = false) stmts.
Proof.
  intros (Hsuites & Hviews & _)%New_ready env' dsn'.
  by apply New_on_ready.
Qed.

Lemma New_again_writes_nothing_witness :
  same_data started (New (failing_at 40 "timeout") "host=localhost" started).2.
Proof.
  apply (New_again_writes_nothing quiet "host=localhost" empty_pg
           {| BatchSize := 1024 |} started).
  vm_compute. reflexivity.
Defined.

(** ** Suite seeding *)

(** X4.  An error of [populateTestSuitesInDB] is either the failure of
    a lookup, returned as it is, or the failure of a creation, wrapped
    with the name of the suite of the registry being created; it is
    never [gorm.ErrRecordNotFound], which the function keeps to
    itself. *)
Theorem populateTestSuitesInDB_errors (env : Env) (pg : Postgres) (e : Error) :
  (populateTestSuitesInDB env pg).1 = Some e →
  ((∃ msg, e = ErrOther msg) ∨
   (∃ name msg, name ∈ testSuitePrefixes ∧
      e = ErrWrapped ("error loading suite into db: " +:+ name) (ErrOther msg))) ∧
  errors_Is e ErrRecordNotFound = false.
Proof.
  intros He.
  pose proof (populate_suites_journal env testSuitePrefixes pg)
    as (_ & _ & _ & _ & _ & _ & Herr).
  specialize (Herr e He). split; [done|].
  by destruct Herr as [(msg & ->)|(name & msg & _ & ->)].
Qed.

Lemma populateTestSuitesInDB_errors_witness :
  (populateTestSuitesInDB (failing_at 1 "disk full") empty_pg).1
    = Some (ErrWrapped "error loading suite into db: openshift-tests"
              (ErrOther "disk full")) ∧
  errors_Is (ErrWrapped "error loading suite into db: openshift-tests"
               (ErrOther "disk full")) ErrRecordNotFound = false.
Proof.
  split; [reflexivity|].
  apply (populateTestSuitesInDB_errors (failing_at 1 "disk full") empty_pg).
  reflexivity.
Defined.

(** X5.  [populateTestSuitesInDB] sends no execution and leaves views
    and other tables alone; it sends the creation of a suite only for a
    name of the registry that had no row when it started. *)
Theorem populateTestSuitesInDB_creates_only_missing (env : Env) (pg : Postgres) :
  let r := populateTestSuitesInDB env pg in
  pg_matviews r.2 = pg_matviews pg ∧
  relations r.2 = relations pg ∧
  ∃ stmts,
    journal r.2 = journal pg ++ stmts ∧
    Forall (fun q => is_Exec q = false) stmts ∧
    ∀ name, CreateSuite name ∈ stmts →
            name ∈ testSuitePrefixes ∧ name ∉ suite_names pg.
Proof.
  intros r.
  pose proof (populate_suites_journal env testSuitePrefixes pg)
    as (Hmv & Hrel & stmts & Hj & Hex & Hcr & _).
  split_and!; [done..|]. by exists stmts.
Qed.

(** ** The materialized views *)

(** When a run over a catalog without repeated names fails, the
    entries before the failing one have their views, and the failing
    entry and those after it are as they were. *)
Lemma ensure_matviews_partial env views :
  ∀ pg e, (ensure_matviews env views pg).1 = Some e →
    NoDup (Name <$> views) →
    ∃ before failed after,
      views = before ++ failed :: after ∧
      (∀ pmv, pmv ∈ before →
         is_Some (pg_matviews (ensure_matviews env views pg).2 !! Name pmv)) ∧
      (∀ pmv, pmv ∈ failed :: after →
         pg_matviews (ensure_matviews env views pg).2 !! Name pmv
         = pg_matviews pg !! Name pmv).
Proof.
  induction views as [|pmv rest IH]; intros pg e He Hnd; [done|].
  apply NoDup_cons in Hnd as [Hfresh Hnd].
  destruct (ensure_matviews_cons env pmv rest pg) as (o & Ho & Heq).
  rewrite Heq in He |- *. clear Heq.
  destruct Ho as [msg Hf|d Hq Hd|msg Hq Hd Hf|Hq Hd]; cbn [fst snd] in *.
  - exists [], pmv, rest. split_and!; [done | by intros ? ?%elem_of_nil | done].
  - match goal with |- context [ensure_matviews env rest ?pg1] =>
      destruct (IH pg1 e He Hnd) as (before & failed & after & -> & Hb & Ha);
      destruct (ensure_matviews_frame env (before ++ failed :: after) pg1)
        as (_ & _ & _ & Hsub & _)
    end.
    exists (pmv :: before), failed, after. split_and!; [done | |].
    + intros pmv' [->|Hin]%elem_of_cons; [|by apply Hb].
      exists d. by eapply lookup_weaken.
    + intros pmv' Hin. by rewrite (Ha pmv' Hin).
  - exists [], pmv, rest. split_and!; [done | by intros ? ?%elem_of_nil | done].
  - match goal with |- context [ensure_matviews env rest ?pg1] =>
      destruct (IH pg1 e He Hnd) as (before & failed & after & -> & Hb & Ha);
      destruct (ensure_matviews_frame env (before ++ failed :: after) pg1)
        as (_ & _ & _ & Hsub & _)
    end.
    exists (pmv :: before), failed, after. split_and!; [done | |].
    + intros pmv' [->|Hin]%elem_of_cons; [|by apply Hb].
      eexists. eapply lookup_weaken; [|exact Hsub]. cbn. by rewrite lookup_insert_eq.
    + intros pmv' Hin. rewrite (Ha pmv' Hin). cbn.
      apply lookup_insert_ne. intros Heq. apply Hfresh. rewrite Heq.
      apply list_elem_of_fmap. exists pmv'. split; [done|].
      apply elem_of_app. by right.
Qed.

(** X6.  When [createPostgresMaterializedViews] returns an error, the
    catalog splits at the entry it failed on: the views of the entries
    before it exist, and the views of that entry and of the entries
    after it are exactly as they were before the run. *)
Theorem createPostgresMaterializedViews_partial
    (env : Env) (pg : Postgres) (e : Error) :
  (createPostgresMaterializedViews env pg).1 = Some e →
  ∃ before failed after,
    PostgresMatViews = before ++ failed :: after ∧
    (∀ pmv, pmv ∈ before →
       is_Some (pg_matviews (createPostgresMaterializedViews env pg).2 !! Name pmv)) ∧
    (∀ pmv, pmv ∈ failed :: after →
       pg_matviews (createPostgresMaterializedViews env pg).2 !! Name pmv
       = pg_matviews pg !! Name pmv).
Proof.
  intros He. apply (ensure_matviews_partial env PostgresMatViews pg e He).
  apply PostgresMatViews_NoDup.
Qed.

Lemma createPostgresMaterializedViews_partial_witness :
  ∃ before failed after,
    PostgresMatViews = before ++ failed :: after ∧
    (∀ pmv, pmv ∈ before →
       is_Some (pg_matviews
                  (createPostgresMaterializedViews (failing_at 2 "timeout") empty_pg).2
                !! Name pmv)) ∧
    (∀ pmv, pmv ∈ failed :: after →
       pg_matviews
         (createPostgresMaterializedViews (failing_at 2 "timeout") empty_pg).2
       !! Name pmv
       = pg_matviews empty_pg !! Name pmv).
Proof.
  apply (createPostgresMaterializedViews_partial (failing_at 2 "timeout")
           empty_pg (ErrOther "timeout")).
  by vm_compute.
Defined.

(** X7.  [createPostgresMaterializedViews] never drops or redefines a
    view: a view that exists keeps the definition it has, also when the
    catalog now defines it otherwise; the run touches neither the
    suites nor the other tables. *)
Theorem createPostgresMaterializedViews_keeps_definitions
    (env : Env) (pg : Postgres) (name d : string) :
  pg_matviews pg !! name = Some d →
  let r := createPostgresMaterializedViews env pg in
  pg_matviews r.2 !! name = Some d ∧
  suites r.2 = suites pg ∧
  relations r.2 = relations pg.
Proof.
  intros Hd r.
  destruct (ensure_matviews_frame env PostgresMatViews pg)
    as (_ & _ & Hs & Hsub & _).
  split_and!; [by eapply lookup_weaken | done |].
  apply ensure_matviews_relations.
Qed.

Lemma createPostgresMaterializedViews_keeps_definitions_witness :
  pg_matviews (createPostgresMaterializedViews quiet old_report).2
    !! "prow_test_report_7d_matview" = Some "SELECT 1".
Proof.
  apply (createPostgresMaterializedViews_keeps_definitions quiet old_report).
  reflexivity.
Defined.

(** The substitution of an entry of the catalog gives the same
    definition in every order, with no placeholder delimiter left. *)
Lemma substitute_catalog
    (pmv : PostgresMaterializedView) (kvs kvs' : list (string * string)) :
  pmv ∈ PostgresMatViews →
  map_to_list (ReplaceStrings pmv) ≡ₚ kvs →
  map_to_list (ReplaceStrings pmv) ≡ₚ kvs' →
  substitute kvs (Definition_ pmv) = substitute kvs' (Definition_ pmv) ∧
  Contains (substitute kvs (Definition_ pmv)) "|||" = false.
Proof.
  intros Hin Hperm Hperm'.
  unfold PostgresMatViews in Hin.
  apply permutations_Permutation in Hperm, Hperm'.
  repeat (apply elem_of_cons in Hin as [-> | Hin]);
    [ .. | by apply elem_of_nil in Hin ];
    vm_compute in Hperm, Hperm';
    repeat (apply elem_of_cons in Hperm as [-> | Hperm]);
    try (by apply elem_of_nil in Hperm);
    repeat (apply elem_of_cons in Hperm' as [-> | Hperm']);
    try (by apply elem_of_nil in Hperm');
    by vm_compute.
Qed.

(** X8.  For every entry of the catalog the definition obtained by the
    substitution does not depend on the order in which the [range]
    visits the replacements, and no placeholder delimiter is left in
    it. *)
Theorem catalog_substitution_order_free
    (pmv : PostgresMaterializedView) (kvs kvs' : list (string * string)) :
  pmv ∈ PostgresMatViews →
  map_to_list (ReplaceStrings pmv) ≡ₚ kvs →
  map_to_list (ReplaceStrings pmv) ≡ₚ kvs' →
  substitute kvs (Definition_ pmv) = substitute kvs' (Definition_ pmv) ∧
  Contains (substitute kvs (Definition_ pmv)) "|||" = false.
Proof. apply substitute_catalog. Qed.

Lemma catalog_substitution_order_free_witness :
  substitute
    [ ("|||END|||", "NOW()");
      ("|||BOUNDARY|||", "NOW() - INTERVAL '2 DAY'");
      ("|||START|||", "NOW() - INTERVAL '9 DAY'") ]
    testReportMatView
  = substitute (map_to_list (ReplaceStrings testReport2d)) testReportMatView.
Proof.
  apply (catalog_substitution_order_free testReport2d).
  - do 3 right. by left.
  - apply permutations_Permutation. vm_compute.
    repeat first [ by left | right ].
  - reflexivity.
Defined.

(** ** [LastID] *)

(** The highest id is one of the ids, and none exceeds it. *)
Lemma max_id_highest (id : Z) (ids : list Z) :
  max_id id ids ∈ id :: ids ∧ ∀ x, x ∈ id :: ids → (x ≤ max_id id ids)%Z.
Proof.
  unfold max_id. induction ids as [|y ids IH]; cbn.
  - split; [by left|]. intros x [->|[]%elem_of_nil]%elem_of_cons. lia.
  - destruct IH as [Hin Hmax]. split.
    + destruct (Z.max_spec y (foldr Z.max id ids)) as [[_ ->]|[_ ->]].
      * apply elem_of_cons in Hin as [->|Hin]; [by left | by do 2 right].
      * right; by left.
    + intros x [->|[->|Hx]%elem_of_cons]%elem_of_cons.
      * specialize (Hmax id ltac:(by left)). lia.
      * lia.
      * specialize (Hmax x ltac:(by right)). lia.
Qed.

(** X9.  [LastID] only reads: it sends its one query and leaves views,
    suites and tables alone.  On a table that has rows, when the query
    does not fail, what it returns is the id of one of the rows and no
    row has a higher id. *)
Theorem LastID_highest (env : Env) (db : DB) (table : string) (pg : Postgres) :
  let r := LastID env db table pg in
  same_data pg r.2 ∧
  journal r.2 = journal pg ++ [SelectLastID table] ∧
  (∀ ids, fault env (length (journal pg)) = None →
          table_ids pg table = Some ids → ids ≠ [] →
          r.1 ∈ ids ∧ ∀ id, id ∈ ids → (id ≤ r.1)%Z).
Proof.
  unfold LastID, scan_last_id, send; cbn.
  change (table_ids (set_journal _ pg) table) with (table_ids pg table).
  destruct (fault env (length (journal pg))) as [msg|] eqn:Hf; cbn.
  { by split_and!. }
  destruct (table_ids pg table) as [[|id ids]|] eqn:Ht; cbn;
    (split_and!; [done | done |]); try done.
  - by intros ids' _ [= <-].
  - intros ids' _ [= <-] _. apply max_id_highest.
Qed.

Lemma LastID_highest_witness :
  (LastID quiet {| BatchSize := 1024 |} "prow_jobs" three_jobs).1 ∈ [3; 7; 5]%Z ∧
  (5 ≤ (LastID quiet {| BatchSize := 1024 |} "prow_jobs" three_jobs).1)%Z.
Proof.
  destruct (LastID_highest quiet {| BatchSize := 1024 |} "prow_jobs" three_jobs)
    as (_ & _ & Hmax).
  destruct (Hmax [3; 7; 5]%Z) as [Hin Hle]; [reflexivity | reflexivity | done |].
  split; [exact Hin|]. apply Hle. do 2 right. by left.
Defined.

(** ** The order of Go's map iteration *)

Section SameFailures.

Variables env env' : Env.
Hypothesis same_failures : ∀ n, fault env n = fault env' n.

Lemma send_same q pg : send env q pg = send env' q pg.
Proof. unfold send. by rewrite same_failures. Qed.

Lemma auto_migrate_same models :
  ∀ pg, auto_migrate env models pg = auto_migrate env' models pg.
Proof.
  induction models as [|m rest IH]; intros pg; [done|].
  cbn [auto_migrate]. rewrite send_same.
  destruct (send env' (AutoMigrate m) pg) as [[?|] pg1]; [done | apply IH].
Qed.

Lemma first_suite_same name pg : first_suite env name pg = first_suite env' name pg.
Proof. unfold first_suite. by rewrite send_same. Qed.

Lemma create_suite_same s pg : create_suite env s pg = create_suite env' s pg.
Proof. unfold create_suite. by rewrite send_same. Qed.

Lemma populate_suites_same names :
  ∀ pg, populate_suites env names pg = populate_suites env' names pg.
Proof.
  induction names as [|name rest IH]; intros pg; [done|].
  cbn [populate_suites]. rewrite first_suite_same.
  destruct (first_suite env' name pg) as [[e|s] pg1]; [|apply IH].
  destruct (negb (errors_Is e ErrRecordNotFound)); [done|].
  rewrite create_suite_same.
  destruct (create_suite env' _ pg1) as [[?|] pg2]; [done | apply IH].
Qed.

Lemma ensure_matviews_same views :
  (∀ pmv, pmv ∈ views → pmv ∈ PostgresMatViews) →
  ∀ pg, ensure_matviews env views pg = ensure_matviews env' views pg.
Proof.
  induction views as [|pmv rest IH]; intros Hsub pg; [done|].
  cbn [ensure_matviews].
  assert (ensure_matview env pmv pg = ensure_matview env' pmv pg) as ->.
  { unfold ensure_matview, count_matviews, exec_create_matview.
    rewrite send_same.
    destruct (send env' (CountMatviews (Name pmv)) pg) as [[e|] pg1]; [done|].
    destruct (pg_matviews pg1 !! Name pmv); [done|]. cbn [Z.eqb].
    destruct (substitute_catalog pmv
                (range_order env (length (journal pg1)) (ReplaceStrings pmv))
                (range_order env' (length (journal pg1)) (ReplaceStrings pmv)))
      as [-> _]; [apply Hsub; by left | apply range_order_perm..|].
    by rewrite send_same. }
  destruct (ensure_matview env' pmv pg) as [[?|] pg1]; [done|].
  apply IH. intros pmv' Hin. apply Hsub. by right.
Qed.

(** X10.  What [New] returns, the store it leaves and the statements it
    sends depend on the environment through the failures only: the
    order in which Go's [range] visits the replacement maps makes no
    difference. *)
Theorem New_whatever_the_map_order (dsn : string) (pg : Postgres) :
  New env dsn pg = New env' dsn pg.
Proof.
  unfold New. rewrite send_same.
  destruct (send env' (Open dsn) pg) as [[?|] pg1]; [done|].
  rewrite auto_migrate_same.
  destruct (auto_migrate env' migrated pg1) as [[?|] pg2]; [done|].
  unfold populateTestSuitesInDB. rewrite populate_suites_same.
  destruct (populate_suites env' testSuitePrefixes pg2) as [[?|] pg3]; [done|].
  unfold createPostgresMaterializedViews. by rewrite ensure_matviews_same.
Qed.

End SameFailures.

Lemma New_whatever_the_map_order_witness :
  New backwards "host=localhost" empty_pg = New quiet "host=localhost" empty_pg.
Proof.
  apply New_whatever_the_map_order. intros n. reflexivity.
Defined.

End DbMore.

(** ** The [load] command and [prowLoader] *)

Module LoadMore.

Import LoadCommand LoadSpec LoadFacts ProwLoader LoadMoreSpec.

(** ** [RunE] before the coordinator *)

(** The body of the loop over [f.Loaders]: the error of the
    constructor it calls, or the loaders with the one the name selects. *)
Lemma select_loader_cases c i l acc :
  select_loader c i l acc =
  match constructor_error c i l with
  | Some err => inl err
  | None => inr (acc ++ option_list (loader_named l))
  end.
Proof.
  unfold select_loader, constructor_error, loader_named.
  repeat case_decide; simplify_eq; cbn;
    repeat case_match; simplify_eq; cbn in *; simplify_eq;
    by rewrite ?app_nil_r.
Qed.

(** The loop stops at the first constructor that fails. *)
Lemma select_loaders_first_error c names :
  ∀ i acc k l err,
    names !! k = Some l →
    constructor_error c (i + k) l = Some err →
    (∀ j l', j < k → names !! j = Some l' → constructor_error c (i + j) l' = None) →
    select_loaders c i names acc = inl err.
Proof.
  induction names as [|n rest IH]; intros i acc k l err Hk Herr Hbefore; [done|].
  cbn [select_loaders]. rewrite select_loader_cases.
  destruct k as [|k].
  - injection Hk as ->. rewrite Nat.add_0_r in Herr. by rewrite Herr.
  - rewrite <-(Nat.add_0_r i) at 1. rewrite (Hbefore 0 n); [|lia|done].
    apply (IH (S i) _ k l err); [done | |].
    + by replace (S i + k) with (i + S k) by lia.
    + intros j l' Hj Hl'. replace (S i + j) with (i + S j) by lia.
      apply Hbefore; [lia | done].
Qed.

(** Names that select no loader call no constructor and add nothing. *)
Lemma select_loaders_unknown c names :
  ∀ i acc, (∀ l, l ∈ names → loader_named l = None) →
           select_loaders c i names acc = inr acc.
Proof.
  induction names as [|n rest IH]; intros i acc Hnone; [done|].
  cbn [select_loaders]. rewrite select_loader_cases.
  assert (Hn : loader_named n = None) by (apply Hnone; by left).
  assert (constructor_error c i n = None) as ->.
  { unfold constructor_error, loader_named in *.
    repeat case_decide; simplify_eq; done. }
  rewrite Hn. cbn. rewrite app_nil_r. apply IH.
  intros l Hl. apply Hnone. by right.
Qed.

(** X11.  When [RunE] does not get as far as running the loaders, it
    returns an error and leaves the store as it found it: no loader has
    run, nothing is committed and no refresh is requested. *)
Theorem RunE_stopped_changes_nothing
    (c : Collaborators) (f : LoadFlags) (st : Store) :
  (∀ ls, ¬ ran c f ls) →
  is_Some (RunE c f st).1 ∧ (RunE c f st).2 = st.
Proof.
  intros Hnot. unfold RunE.
  destruct (GetDBClient c) eqn:Hdb; [done|].
  destruct (if InitDatabase f then UpdateSchema c else None) eqn:Hs; [done|].
  destruct (GetConfig c) eqn:Hcfg; [done|].
  destruct (select_loaders c 0 (Loaders f) []) as [e|ls] eqn:Hsel; [done|].
  by destruct (Hnot ls).
Qed.

Lemma RunE_stopped_changes_nothing_witness :
  is_Some (RunE gcs_down releases_then_prow empty_store).1 ∧
  (RunE gcs_down releases_then_prow empty_store).2 = empty_store.
Proof.
  apply RunE_stopped_changes_nothing.
  intros ls (_ & _ & _ & Hsel). discriminate Hsel.
Defined.

(** X12.  The first constructor of a loader that fails stops the whole
    invocation: [RunE] returns that error (wrapped for the
    test-mapping loader, as it is for the prow loader) and the store is
    untouched; the loaders selected before it never run. *)
Theorem RunE_constructor_failure_stops_all
    (c : Collaborators) (f : LoadFlags) (st : Store)
    (k : nat) (l : string) (err : Error) :
  GetDBClient c = None →
  (if InitDatabase f then UpdateSchema c else None) = None →
  GetConfig c = None →
  Loaders f !! k = Some l →
  constructor_error c k l = Some err →
  (∀ j l', j < k → Loaders f !! j = Some l' → constructor_error c j l' = None) →
  RunE c f st = (Some err, st).
Proof.
  intros Hdb Hs Hcfg Hk Herr Hbefore. unfold RunE.
  rewrite Hdb, Hs, Hcfg.
  by rewrite (select_loaders_first_error c (Loaders f) 0 [] k l err).
Qed.

Lemma RunE_constructor_failure_stops_all_witness :
  RunE gcs_down releases_then_prow empty_store
  = (Some (ErrOther "gcs: no credentials"), empty_store).
Proof.
  apply (RunE_constructor_failure_stops_all gcs_down releases_then_prow
           empty_store 1 "prow"); try reflexivity.
  intros [|j] l' Hj Hl'; [|lia]. by injection Hl' as <-.
Defined.

(** X13.  Without --init-database the outcome of the schema migration
    plays no part: [RunE] does the same whatever [UpdateSchema] would
    return. *)
Theorem RunE_migrates_only_on_request
    (c : Collaborators) (f : LoadFlags) (st : Store) (e : option Error) :
  InitDatabase f = false →
  RunE (with_UpdateSchema e c) f st = RunE c f st.
Proof.
  intros Hinit. unfold RunE. rewrite Hinit. cbn [GetDBClient GetConfig with_UpdateSchema].
  destruct (GetDBClient c); [done|]. destruct (GetConfig c); [done|].
  assert (Hsel : ∀ names i acc,
    select_loaders (with_UpdateSchema e c) i names acc = select_loaders c i names acc).
  { induction names as [|n rest IH]; intros i acc; [done|].
    cbn [select_loaders]. rewrite !select_loader_cases.
    change (constructor_error (with_UpdateSchema e c) i n)
      with (constructor_error c i n).
    destruct (constructor_error c i n); [done | apply IH]. }
  rewrite Hsel. destruct (select_loaders c 0 (Loaders f) []) as [?|ls]; [done|].
  assert (Hrun : ∀ ls st0, run_loaders (with_UpdateSchema e c) ls st0 = run_loaders c ls st0).
  { induction ls0 as [|l0 rest IH]; intros st0; [done|].
    cbn [run_loaders]. cbn [loader_Load with_UpdateSchema].
    destruct (loader_Load c l0 _) as [rows es]. by rewrite IH. }
  unfold Load. by rewrite Hrun.
Qed.

Lemma RunE_migrates_only_on_request_witness :
  RunE (with_UpdateSchema (Some (ErrOther "migration failed")) jira_down)
       default_flags empty_store
  = RunE jira_down default_flags empty_store.
Proof.
  apply RunE_migrates_only_on_request. reflexivity.
Defined.

(** X14.  When no name of [f.Loaders] selects a loader (the list is
    empty, or holds only names such as "github"), [RunE] still requests
    the refresh, commits nothing and returns nil. *)
Theorem RunE_without_loaders_refreshes
    (c : Collaborators) (f : LoadFlags) (st : Store) :
  GetDBClient c = None →
  (if InitDatabase f then UpdateSchema c else None) = None →
  GetConfig c = None →
  (∀ l, l ∈ Loaders f → loader_named l = None) →
  RunE c f st = (None, RefreshData st).
Proof.
  intros Hdb Hs Hcfg Hnone. unfold RunE.
  rewrite Hdb, Hs, Hcfg, (select_loaders_unknown c (Loaders f) 0 [] Hnone).
  cbn. by destruct st.
Qed.

Lemma RunE_without_loaders_refreshes_witness :
  RunE jira_down github_only empty_store = (None, RefreshData empty_store).
Proof.
  apply RunE_without_loaders_refreshes; try reflexivity.
  intros l [->|[]%elem_of_nil]%elem_of_cons. reflexivity.
Defined.

(** ** [prowLoader] *)

(** Decide a closed statement by computation. *)
Ltac closed_decision := apply (bool_decide_unpack _); by vm_compute.

(** None of the calls of a closed list builds the loader. *)
Ltac no_loader :=
  repeat (apply List.Forall_cons; [by intros ? ?|]); apply List.Forall_nil.

(** An equivalence one side of which is closed and the other known. *)
Ltac closed_iff :=
  split;
  [ first [ done | intros Hc; exfalso; revert Hc; closed_decision ]
  | first [ intros _; closed_decision | done ] ].

(** The loop over [f.Loaders] builds one client when "github" is among
    the names, none otherwise. *)
Lemma github_client_spec (names : list string) :
  github_client names = if decide ("github" ∈ names) then [GithubNew] else [].
Proof.
  induction names as [|l rest IH]; [done|]. cbn.
  destruct (decide (l = "github")) as [->|Hne].
  - rewrite decide_True; [done | by left].
  - rewrite IH. destruct (decide ("github" ∈ rest)) as [Hin|Hnot].
    + rewrite decide_True; [done | by right].
    + rewrite decide_False; [done|].
      intros [?|?]%elem_of_cons; [congruence | done].
Qed.

(** X15.  When [prowLoader] succeeds, the prow loader is built with a
    GitHub client exactly when "github" is among [f.Loaders], and with a
    BigQuery client exactly when LoadOpenShiftCIBigQuery is set; the
    commenter is given the same GitHub client as the loader; the GitHub
    client is built at most once, however often "github" is listed; and
    [prowloader.New] is the last call. *)
Theorem prowLoader_clients
    (k : Constructors) (f : LoadFlags) (bq : bool) (loader : Call) (calls : list Call) :
  prowLoader k f bq = (inr loader, calls) →
  loader = ProwloaderNew bq (bool_decide ("github" ∈ Loaders f)) ∧
  NewGitHubCommenter (bool_decide ("github" ∈ Loaders f)) ∈ calls ∧
  (GithubNew ∈ calls ↔ "github" ∈ Loaders f) ∧
  (NewBigQueryClient ∈ calls ↔ bq = true) ∧
  length (filter (fun q => q = GithubNew) calls) ≤ 1 ∧
  last calls = Some loader.
Proof.
  unfold prowLoader. rewrite github_client_spec.
  destruct (gcs_NewGCSClient k); [done|].
  destruct bq; cbn; [destruct (bigquery_NewClient k); [done|]|];
    (destruct (decide ("github" ∈ Loaders f)) as [Hin|Hnot]; cbn;
     [ rewrite (bool_decide_eq_true_2 _ Hin)
     | rewrite (bool_decide_eq_false_2 _ Hnot) ];
     (destruct (commenter_NewGitHubCommenter k _); [done|]);
     intros [= <- <-];
     (split; [done|]); (split; [closed_decision|]);
     (split; [closed_iff|]); (split; [closed_iff|]);
     (split; [vm_compute; lia | done])).
Qed.

Lemma prowLoader_clients_witness :
  (prowLoader all_built github_twice false).1 = inr (ProwloaderNew false true) ∧
  length (filter (fun q => q = GithubNew) (prowLoader all_built github_twice false).2) ≤ 1.
Proof.
  destruct (prowLoader_clients all_built github_twice false
              (ProwloaderNew false true) (prowLoader all_built github_twice false).2)
    as (_ & _ & _ & _ & Honce & _); [reflexivity|].
  split; [reflexivity | exact Honce].
Defined.

(** X16.  Without LoadOpenShiftCIBigQuery, [prowLoader] never calls
    [bigquery.NewClient], so that what this constructor would return
    plays no part. *)
Theorem prowLoader_bigquery_on_request
    (k : Constructors) (f : LoadFlags) (e : option Error) :
  let k' := {| gcs_NewGCSClient := gcs_NewGCSClient k;
               bigquery_NewClient := e;
               commenter_NewGitHubCommenter := commenter_NewGitHubCommenter k |} in
  prowLoader k' f false = prowLoader k f false ∧
  NewBigQueryClient ∉ (prowLoader k f false).2.
Proof.
  intros k'. split; [done|].
  unfold prowLoader. rewrite github_client_spec.
  destruct (gcs_NewGCSClient k); [closed_decision|]. cbn.
  destruct (decide ("github" ∈ Loaders f)); cbn;
    destruct (commenter_NewGitHubCommenter k _); closed_decision.
Qed.

(** X17.  When [prowLoader] returns an error it has built no loader,
    and the error is that of the last constructor it called: the GCS
    client first, then the BigQuery client, then the commenter;
    nothing is called after a failure. *)
Theorem prowLoader_error
    (k : Constructors) (f : LoadFlags) (bq : bool) (err : Error) (calls : list Call) :
  prowLoader k f bq = (inl err, calls) →
  Forall (fun q => ∀ b g, q ≠ ProwloaderNew b g) calls ∧
  ((gcs_NewGCSClient k = Some err ∧ calls = [NewGCSClient]) ∨
   (gcs_NewGCSClient k = None ∧ bq = true ∧ bigquery_NewClient k = Some err ∧
      calls = [NewGCSClient; NewBigQueryClient]) ∨
   (gcs_NewGCSClient k = None ∧ (bq = true → bigquery_NewClient k = None) ∧
      ∃ g, commenter_NewGitHubCommenter k g = Some err ∧
           last calls = Some (NewGitHubCommenter g))).
Proof.
  unfold prowLoader. rewrite github_client_spec.
  destruct (gcs_NewGCSClient k) as [e0|];
    [intros [= <- <-]; split; [no_loader | by left]|].
  destruct bq; cbn;
    [destruct (bigquery_NewClient k) as [e1|];
       [intros [= <- <-]; split; [no_loader | right; by left]|]|];
    (destruct (decide ("github" ∈ Loaders f)); cbn;
     (destruct (commenter_NewGitHubCommenter k _) eqn:Hc; [|done]);
     intros [= <- <-]; (split; [no_loader|]); do 2 right;
     (split_and!; [done | done |]); by eexists).
Qed.

Lemma prowLoader_error_witness :
  (prowLoader bigquery_down default_flags true).2 = [NewGCSClient; NewBigQueryClient].
Proof.
  destruct (prowLoader_error bigquery_down default_flags true
              (ErrOther "bigquery: permission denied")
              (prowLoader bigquery_down default_flags true).2)
    as [_ [[Hc _]|[(_ & _ & _ & Hcalls)|(_ & Hc & _)]]]; [reflexivity | | |].
  - discriminate Hc.
  - exact Hcalls.
  - by specialize (Hc eq_refl).
Defined.

End LoadMore.

(** ** Package [esapi] *)

Module EsapiFacts.
Import Esapi EsapiSpec.

(** ** The parameters [Do] computes *)

(** Look a key up in a map built by insertions under literal keys. *)
Ltac params_lookup :=
  repeat first
    [ rewrite lookup_insert_eq
    | rewrite lookup_insert_ne by discriminate
    | rewrite lookup_empty ].

(** The cases of the five conditions of [params]. *)
Ltac params_cases r :=
  unfold params;
  destruct (decide (Refresh r ≠ "")), (Pretty r), (Human r), (ErrorTrace r),
    (decide (0 < length (FilterPath r))); params_lookup.

Lemma params_refresh r :
  params r !! "refresh" = if decide (Refresh r = "") then None else Some (Refresh r).
Proof. params_cases r; destruct (decide (Refresh r = "")); done. Qed.

Lemma params_pretty r :
  params r !! "pretty" = if Pretty r then Some "true" else None.
Proof. params_cases r; done. Qed.

Lemma params_human r :
  params r !! "human" = if Human r then Some "true" else None.
Proof. params_cases r; done. Qed.

Lemma params_error_trace r :
  params r !! "error_trace" = if ErrorTrace r then Some "true" else None.
Proof. params_cases r; done. Qed.

Lemma params_filter_path r :
  params r !! "filter_path" =
  match FilterPath r with [] => None | _ :: _ => Some (Join (FilterPath r) ",") end.
Proof.
  unfold params.
  destruct (FilterPath r) as [|p ps] eqn:E; cbn [length];
  destruct (decide (Refresh r ≠ "")), (Pretty r), (Human r), (ErrorTrace r);
    case_decide; params_lookup; try done; lia.
Qed.

(** No other parameter is ever computed. *)
Lemma params_keys r k :
  is_Some (params r !! k) →
  k ∈ ["refresh"; "pretty"; "human"; "error_trace"; "filter_path"].
Proof.
  unfold params.
  destruct (decide (Refresh r ≠ "")), (Pretty r), (Human r), (ErrorTrace r),
    (decide (0 < length (FilterPath r)));
  repeat (rewrite lookup_insert_is_Some; intros [->|[_ H]]; [set_solver|revert H]);
  rewrite lookup_empty; by intros [? ?].
Qed.

(** ** Options applied in order *)

Lemma apply_all_cons rt r w ws :
  apply_all rt r (w :: ws) = apply_all rt (option_of rt w r) ws.
Proof. reflexivity. Qed.

Lemma apply_all_app rt r ws1 ws2 :
  apply_all rt r (ws1 ++ ws2) = apply_all rt (apply_all rt r ws1) ws2.
Proof. unfold apply_all. by rewrite fmap_app, foldl_app. Qed.

(** [newSecurityPutPrivilegesFunc] runs [Do] on the configured request
    with the context the options left in it. *)
Lemma newSecurityPutPrivilegesFunc_sent rt pk t body ws :
  newSecurityPutPrivilegesFunc rt pk t body (option_of rt <$> ws) =
  Do rt pk (configured rt body ws) (ctx (configured rt body ws)) t.
Proof. reflexivity. Qed.

Lemma bool_decide_elem_cons_ne (x w : With) ws :
  x ≠ w → bool_decide (x ∈ w :: ws) = bool_decide (x ∈ ws).
Proof.
  intros Hne. apply bool_decide_ext. rewrite elem_of_cons.
  split; [intros [?|?]; done | by right].
Qed.

Lemma apply_all_Pretty rt ws : ∀ r,
  Pretty (apply_all rt r ws) = Pretty r || bool_decide (ByPretty ∈ ws).
Proof.
  induction ws as [|w ws IH]; intros r.
  - cbn. by rewrite orb_false_r.
  - rewrite apply_all_cons, IH.
    destruct w; cbn [option_of WithContext WithRefresh WithPretty WithHuman
      WithErrorTrace WithFilterPath WithHeader WithOpaqueID set_Header Pretty];
    try (by rewrite bool_decide_elem_cons_ne by done).
    rewrite (bool_decide_true (ByPretty ∈ ByPretty :: ws)) by left.
    by rewrite !orb_true_r.
Qed.

Lemma apply_all_Human rt ws : ∀ r,
  Human (apply_all rt r ws) = Human r || bool_decide (ByHuman ∈ ws).
Proof.
  induction ws as [|w ws IH]; intros r.
  - cbn. by rewrite orb_false_r.
  - rewrite apply_all_cons, IH.
    destruct w; cbn [option_of WithContext WithRefresh WithPretty WithHuman
      WithErrorTrace WithFilterPath WithHeader WithOpaqueID set_Header Human];
    try (by rewrite bool_decide_elem_cons_ne by done).
    rewrite (bool_decide_true (ByHuman ∈ ByHuman :: ws)) by left.
    by rewrite !orb_true_r.
Qed.

Lemma apply_all_ErrorTrace rt ws : ∀ r,
  ErrorTrace (apply_all rt r ws) = ErrorTrace r || bool_decide (ByErrorTrace ∈ ws).
Proof.
  induction ws as [|w ws IH]; intros r.
  - cbn. by rewrite orb_false_r.
  - rewrite apply_all_cons, IH.
    destruct w; cbn [option_of WithContext WithRefresh WithPretty WithHuman
      WithErrorTrace WithFilterPath WithHeader WithOpaqueID set_Header ErrorTrace];
    try (by rewrite bool_decide_elem_cons_ne by done).
    rewrite (bool_decide_true (ByErrorTrace ∈ ByErrorTrace :: ws)) by left.
    by rewrite !orb_true_r.
Qed.

(** Options that do not set a field leave it as it was. *)
Lemma apply_all_Refresh rt ws : ∀ r,
  Forall (fun w => sets_refresh w = false) ws →
  Refresh (apply_all rt r ws) = Refresh r.
Proof.
  induction ws as [|w ws IH]; intros r Hws; [done|].
  apply Forall_cons in Hws as [Hw Hws].
  rewrite apply_all_cons, IH by done. by destruct w.
Qed.

Lemma apply_all_FilterPath rt ws : ∀ r,
  Forall (fun w => sets_filter_path w = false) ws →
  FilterPath (apply_all rt r ws) = FilterPath r.
Proof.
  induction ws as [|w ws IH]; intros r Hws; [done|].
  apply Forall_cons in Hws as [Hw Hws].
  rewrite apply_all_cons, IH by done. by destruct w.
Qed.

Lemma apply_all_ctx rt ws : ∀ r,
  Forall (fun w => sets_context w = false) ws →
  ctx (apply_all rt r ws) = ctx r.
Proof.
  induction ws as [|w ws IH]; intros r Hws; [done|].
  apply Forall_cons in Hws as [Hw Hws].
  rewrite apply_all_cons, IH by done. by destruct w.
Qed.

Lemma apply_all_Body rt ws : ∀ r, Body (apply_all rt r ws) = Body r.
Proof.
  induction ws as [|w ws IH]; intros r; [done|].
  rewrite apply_all_cons, IH. by destruct w.
Qed.

(** ** The query and the header of the request *)

(** Setting the pairs of a list without repeated keys, in its order. *)
Lemma foldl_Values_Set_lookup (l : list (string * string)) : ∀ (q : Values) k,
  NoDup l.*1 →
  foldl (fun q kv => Values_Set q kv.1 kv.2) q l !! k =
  match (list_to_map l : gmap string string) !! k with
  | Some v => Some [v]
  | None => q !! k
  end.
Proof.
  induction l as [|[k0 v0] l IH]; intros q k Hnd;
    [cbn; by rewrite lookup_empty|].
  rewrite fmap_cons in Hnd. apply NoDup_cons in Hnd as [Hk0 Hnd].
  cbn [fst] in Hk0. cbn [foldl fst snd].
  rewrite IH by done. rewrite list_to_map_cons. unfold Values_Set.
  destruct (decide (k = k0)) as [->|Hne].
  - rewrite (not_elem_of_list_to_map_1 _ _ Hk0), !lookup_insert_eq. done.
  - rewrite !lookup_insert_ne by done. done.
Qed.

Lemma range_strings_lookup rt (m : gmap string string) (q : Values) k :
  foldl (fun q kv => Values_Set q kv.1 kv.2) q (range_strings rt m) !! k =
  match m !! k with Some v => Some [v] | None => q !! k end.
Proof.
  pose proof (range_strings_perm rt m) as Hp.
  assert (NoDup (range_strings rt m).*1) as Hnd.
  { rewrite <- Hp. apply NoDup_fst_map_to_list. }
  rewrite foldl_Values_Set_lookup by done.
  rewrite <- (list_to_map_proper _ _ (NoDup_fst_map_to_list m) Hp).
  by rewrite list_to_map_to_list.
Qed.

Lemma at_key_Header_Add rt h k v K :
  at_key (Header_Add rt h k v) K =
  at_key h K ++ (if decide (K = CanonicalMIMEHeaderKey rt k) then [v] else []).
Proof.
  unfold at_key, Header_Add. case_decide as HK.
  - subst K. by rewrite lookup_insert_eq.
  - rewrite lookup_insert_ne by done. by rewrite app_nil_r.
Qed.

Lemma at_key_Header_Add_all rt k K vv : ∀ h,
  at_key (foldl (fun h v => Header_Add rt h k v) h vv) K =
  at_key h K ++ (if decide (K = CanonicalMIMEHeaderKey rt k) then vv else []).
Proof.
  induction vv as [|v vv IH]; intros h; cbn [foldl].
  - case_decide; by rewrite app_nil_r.
  - rewrite IH, at_key_Header_Add. case_decide; by rewrite <- app_assoc.
Qed.

Lemma at_key_merge rt K l : ∀ h,
  at_key (foldl (fun h kvv => foldl (fun h v => Header_Add rt h kvv.1 v) h kvv.2) h l) K =
  at_key h K ++
  (l ≫= fun kvv => if decide (K = CanonicalMIMEHeaderKey rt kvv.1) then kvv.2 else []).
Proof.
  induction l as [|[k vv] l IH]; intros h; cbn [foldl fst snd].
  - by rewrite app_nil_r.
  - rewrite IH, at_key_Header_Add_all, bind_cons. cbn [fst snd].
    by rewrite <- app_assoc.
Qed.

Lemma at_key_add_strings rt K l : ∀ h,
  at_key (foldl (fun h kv => Header_Add rt h kv.1 kv.2) h l) K =
  at_key h K ++
  (l ≫= fun kv => if decide (K = CanonicalMIMEHeaderKey rt kv.1) then [kv.2] else []).
Proof.
  induction l as [|[k v] l IH]; intros h; cbn [foldl fst snd].
  - by rewrite app_nil_r.
  - rewrite IH, at_key_Header_Add, bind_cons. cbn [fst snd].
    by rewrite <- app_assoc.
Qed.

Lemma range_values_empty rt : range_values rt ∅ = [].
Proof.
  symmetry. apply Permutation_nil_l. rewrite <- (range_values_perm rt ∅).
  by rewrite map_to_list_empty.
Qed.

Lemma header_values_WithHeader rt h r K :
  header_values (WithHeader rt h r) K =
  header_values r K ++
  (range_strings rt h ≫=
     fun kv => if decide (K = CanonicalMIMEHeaderKey rt kv.1) then [kv.2] else []).
Proof.
  unfold header_values, WithHeader. cbn [Header set_Header].
  pose proof (at_key_add_strings rt K (range_strings rt h)) as Hadd.
  unfold at_key in Hadd. rewrite Hadd.
  destruct (Header r); [done|]. by rewrite lookup_empty.
Qed.

Lemma header_values_WithOpaqueID rt s r K :
  header_values (WithOpaqueID rt s r) K =
  if decide (K = CanonicalMIMEHeaderKey rt "X-Opaque-Id") then [s]
  else header_values r K.
Proof.
  unfold header_values, WithOpaqueID, Header_Set. cbn [Header set_Header].
  case_decide as HK.
  - subst K. by rewrite lookup_insert_eq.
  - rewrite lookup_insert_ne by done. destruct (Header r); [done|].
    by rewrite lookup_empty.
Qed.

Lemma header_values_grow rt K ws : ∀ r,
  K ≠ CanonicalMIMEHeaderKey rt "X-Opaque-Id" →
  ∃ extra, header_values (apply_all rt r ws) K = header_values r K ++ extra.
Proof.
  induction ws as [|w ws IH]; intros r HK.
  - exists []. by rewrite app_nil_r.
  - rewrite apply_all_cons. destruct (IH (option_of rt w r) HK) as [extra ->].
    destruct w; cbn [option_of];
      try (by exists extra).
    + rewrite header_values_WithHeader, <- app_assoc. by eexists.
    + rewrite header_values_WithOpaqueID. rewrite decide_False by done.
      by exists extra.
Qed.

(** ** The request handed to the transport *)

(** When [newRequest] succeeds so does the construction, which keeps
    method, path and body. *)
Lemma build_inr rt pk r c req0 :
  endpoint pk (Body r) = inr req0 →
  ∃ req, build rt pk r c = inr req
    ∧ Method req = Method req0 ∧ Path req = Path req0 ∧ ReqBody req = ReqBody req0
    ∧ ReqContext req = match c with Some c => Some c | None => ReqContext req0 end
    ∧ Query req =
        (if decide (0 < size (params r))
         then foldl (fun q kv => Values_Set q kv.1 kv.2) (Query req0)
                    (range_strings rt (params r))
         else Query req0).
Proof.
  unfold endpoint, build. intros ->. eexists. split; [reflexivity|].
  destruct (decide (0 < size (params r))), (Body r), (Header r) as [h|], c;
    cbn; repeat case_decide; cbn; done.
Qed.

(** X18.  Pretty, human and error_trace are sent as [true] exactly when
    the option was given, wherever it stands among the options and
    however often; no option takes them back. *)
Theorem newSecurityPutPrivilegesFunc_flags rt body ws :
  params (configured rt body ws) !! "pretty"
    = (if bool_decide (ByPretty ∈ ws) then Some "true" else None)
  ∧ params (configured rt body ws) !! "human"
    = (if bool_decide (ByHuman ∈ ws) then Some "true" else None)
  ∧ params (configured rt body ws) !! "error_trace"
    = (if bool_decide (ByErrorTrace ∈ ws) then Some "true" else None).
Proof.
  unfold configured.
  rewrite params_pretty, params_human, params_error_trace.
  by rewrite apply_all_Pretty, apply_all_Human, apply_all_ErrorTrace.
Qed.

(** X19.  The refresh parameter is that of the last WithRefresh: it is
    sent unless that value is empty, and it is absent when no option
    sets it. *)
Theorem newSecurityPutPrivilegesFunc_last_refresh rt body ws1 v ws2 :
  Forall (fun w => sets_refresh w = false) ws2 →
  params (configured rt body (ws1 ++ ByRefresh v :: ws2)) !! "refresh"
    = (if decide (v = "") then None else Some v)
  ∧ params (configured rt body ws2) !! "refresh" = None.
Proof.
  intros Hws2. unfold configured. rewrite !params_refresh.
  rewrite apply_all_app, apply_all_cons, !apply_all_Refresh by done.
  done.
Qed.

Lemma newSecurityPutPrivilegesFunc_last_refresh_witness :
  params (configured as_written None
            ([ByRefresh "true"; ByPretty] ++ ByRefresh "wait_for" :: [ByHuman]))
    !! "refresh" = Some "wait_for".
Proof.
  destruct (newSecurityPutPrivilegesFunc_last_refresh as_written None
              [ByRefresh "true"; ByPretty] "wait_for" [ByHuman]) as [H _].
  - repeat constructor.
  - exact H.
Defined.

(** X20.  The filter_path parameter is the comma-joined list of the last
    WithFilterPath: an empty list there sends none, and none is sent
    when no option sets it. *)
Theorem newSecurityPutPrivilegesFunc_last_filter_path rt body ws1 v ws2 :
  Forall (fun w => sets_filter_path w = false) ws2 →
  params (configured rt body (ws1 ++ ByFilterPath v :: ws2)) !! "filter_path"
    = match v with [] => None | _ :: _ => Some (Join v ",") end
  ∧ params (configured rt body ws2) !! "filter_path" = None.
Proof.
  intros Hws2. unfold configured. rewrite !params_filter_path.
  rewrite apply_all_app, apply_all_cons, !apply_all_FilterPath by done.
  done.
Qed.

Lemma newSecurityPutPrivilegesFunc_last_filter_path_witness :
  params (configured as_written None
            ([ByFilterPath ["took"]] ++ ByFilterPath ["a"; "b.c"] :: [ByPretty]))
    !! "filter_path" = Some "a,b.c".
Proof.
  destruct (newSecurityPutPrivilegesFunc_last_filter_path as_written None
              [ByFilterPath ["took"]] ["a"; "b.c"] [ByPretty]) as [H _].
  - repeat constructor.
  - exact H.
Defined.

(** X21.  When the request can be made, Do sends it with every computed
    parameter as the single value of its key and every other key of the
    query as [newRequest] left it, in whatever order the parameters are
    visited; method, path and body are those of [newRequest], and what
    the transport answers, response or error, is what Do returns. *)
Theorem Do_query rt pk r c req0 :
  endpoint pk (Body r) = inr req0 →
  ∃ req, build rt pk r c = inr req
    ∧ (∀ k, Query req !! k =
            match params r !! k with Some v => Some [v] | None => Query req0 !! k end)
    ∧ Method req = Method req0 ∧ Path req = Path req0 ∧ ReqBody req = ReqBody req0
    ∧ ∀ transport, Do rt pk r c transport = transport req.
Proof.
  intros Hnew.
  destruct (build_inr rt pk r c req0 Hnew) as (req & Hb & Hm & Hp & Hbody & _ & Hq).
  exists req. split_and!; try done.
  - intros k. rewrite Hq. case_decide as Hsize.
    + apply range_strings_lookup.
    + assert (params r = ∅) as ->; [|by rewrite lookup_empty].
      apply map_size_empty_iff. lia.
  - intros transport. unfold Do. rewrite Hb.
    by destruct (transport req) as [err|[]].
Qed.

Lemma Do_query_witness :
  ∃ req, build as_written json_package
           (configured as_written (Some "{}") [ByPretty; ByRefresh "true"]) None
         = inr req
    ∧ Query req !! "refresh" = Some ["true"]
    ∧ Query req !! "human" = None.
Proof.
  destruct (Do_query as_written json_package
              (configured as_written (Some "{}") [ByPretty; ByRefresh "true"]) None
              {| Method := "PUT"; Path := "/_security/privilege/"; Query := ∅;
                 ReqHeader := ∅; ReqBody := Some "{}"; ReqContext := None |})
    as (req & Hb & Hq & _).
  - reflexivity.
  - exists req. split_and!; [exact Hb|exact (Hq "refresh")|exact (Hq "human")].
Defined.

(** X22.  A request with a body is sent with the JSON content type
    first under the content type key: the values the caller's header
    gives for keys that canonicalise to it follow, and nothing replaces
    it. *)
Theorem Do_content_type rt pk r c b req0 :
  Body r = Some b →
  endpoint pk (Body r) = inr req0 →
  ∃ req, build rt pk r c = inr req
    ∧ at_key (ReqHeader req) (headerContentType pk)
      = headerContentTypeJSON pk ++ given rt r (headerContentType pk).
Proof.
  intros Hbody Hnew. unfold endpoint in Hnew. unfold build. rewrite Hnew, Hbody.
  eexists. split; [reflexivity|].
  assert (∀ (h : Values), size (<[headerContentType pk := headerContentTypeJSON pk]> h) ≠ 0)
    as Hsize.
  { intros h Hz. apply map_size_empty_iff in Hz.
    by apply insert_non_empty in Hz. }
  unfold given.
  destruct (Header r) as [h|].
  - destruct (decide (0 < size (params r))), c; cbn;
      (case_decide as Hh;
       [ rewrite decide_False by apply Hsize; cbn;
         rewrite at_key_merge; unfold at_key at 1;
         by rewrite lookup_insert_eq
       | assert (h = ∅) as -> by (apply map_size_empty_iff; lia);
         rewrite range_values_empty; cbn; unfold at_key;
         by rewrite lookup_insert_eq, app_nil_r ]).
  - destruct (decide (0 < size (params r))), c; cbn; unfold at_key;
      by rewrite lookup_insert_eq, app_nil_r.
Qed.

Lemma Do_content_type_witness :
  ∃ req, build as_written json_package
           (configured as_written (Some "{}")
              [ByHeader {["Content-Type" := "text/plain"]}]) None
         = inr req
    ∧ at_key (ReqHeader req) "Content-Type" = ["application/json"; "text/plain"].
Proof.
  destruct (Do_content_type as_written json_package
              (configured as_written (Some "{}")
                 [ByHeader {["Content-Type" := "text/plain"]}]) None "{}"
              {| Method := "PUT"; Path := "/_security/privilege/"; Query := ∅;
                 ReqHeader := ∅; ReqBody := Some "{}"; ReqContext := None |})
    as (req & Hb & Hct).
  - reflexivity.
  - reflexivity.
  - exists req. split; [exact Hb|]. refine (eq_trans Hct _). vm_compute. reflexivity.
Defined.

(** X23.  Under a key other than that of X-Opaque-Id, options only add
    header values after those already there; WithOpaqueID leaves such a
    key alone and leaves its own key with the one value it was given. *)
Theorem options_headers_accumulate rt r ws s K :
  K ≠ CanonicalMIMEHeaderKey rt "X-Opaque-Id" →
  (∃ extra, header_values (apply_all rt r ws) K = header_values r K ++ extra)
  ∧ header_values (apply_all rt r (ws ++ [ByOpaqueID s])) K
    = header_values (apply_all rt r ws) K
  ∧ header_values (apply_all rt r (ws ++ [ByOpaqueID s]))
      (CanonicalMIMEHeaderKey rt "X-Opaque-Id") = [s].
Proof.
  intros HK. split_and!.
  - by apply header_values_grow.
  - rewrite apply_all_app, apply_all_cons. cbn [option_of].
    change (apply_all rt ?x []) with x. rewrite header_values_WithOpaqueID.
    by rewrite decide_False.
  - rewrite apply_all_app, apply_all_cons. cbn [option_of].
    change (apply_all rt ?x []) with x. rewrite header_values_WithOpaqueID.
    by rewrite decide_True.
Qed.

Lemma options_headers_accumulate_witness :
  ∃ extra,
    header_values
      (apply_all as_written (fresh None)
         [ByHeader {["Accept" := "a"]}; ByOpaqueID "1"; ByHeader {["Accept" := "b"]}])
      "Accept"
    = header_values (fresh None) "Accept" ++ extra.
Proof.
  destruct (options_headers_accumulate as_written (fresh None)
              [ByHeader {["Accept" := "a"]}; ByOpaqueID "1"; ByHeader {["Accept" := "b"]}]
              "2" "Accept") as (H & _).
  - discriminate.
  - exact H.
Defined.

(** X24.  The request goes out with the context of the last WithContext;
    when that one is nil, or no option sets a context, it keeps the
    context [newRequest] gave it. *)
Theorem newSecurityPutPrivilegesFunc_last_context rt pk body ws1 v ws2 req0 :
  Forall (fun w => sets_context w = false) ws2 →
  endpoint pk body = inr req0 →
  (∃ req, sent rt pk body (ws1 ++ ByContext v :: ws2) = inr req
     ∧ ReqContext req = match v with Some c => Some c | None => ReqContext req0 end)
  ∧ (∃ req, sent rt pk body ws2 = inr req ∧ ReqContext req = ReqContext req0).
Proof.
  intros Hws2 Hnew. unfold sent, configured. split.
  - destruct (build_inr rt pk (apply_all rt (fresh body) (ws1 ++ ByContext v :: ws2))
                (ctx (apply_all rt (fresh body) (ws1 ++ ByContext v :: ws2))) req0)
      as (req & Hb & _ & _ & _ & Hc & _).
    { by rewrite apply_all_Body. }
    exists req. split; [done|]. rewrite Hc.
    by rewrite apply_all_app, apply_all_cons, apply_all_ctx.
  - destruct (build_inr rt pk (apply_all rt (fresh body) ws2)
                (ctx (apply_all rt (fresh body) ws2)) req0)
      as (req & Hb & _ & _ & _ & Hc & _).
    { by rewrite apply_all_Body. }
    exists req. split; [done|]. rewrite Hc.
    by rewrite apply_all_ctx.
Qed.

Lemma newSecurityPutPrivilegesFunc_last_context_witness :
  ∃ req, sent as_written json_package None
           ([ByContext (Some "first")] ++ ByContext (Some "second") :: [ByPretty])
         = inr req
    ∧ ReqContext req = Some "second".
Proof.
  destruct (newSecurityPutPrivilegesFunc_last_context as_written json_package None
              [ByContext (Some "first")] (Some "second") [ByPretty]
              {| Method := "PUT"; Path := "/_security/privilege/"; Query := ∅;
                 ReqHeader := ∅; ReqBody := None; ReqContext := None |})
    as (H & _).
  - repeat constructor.
  - reflexivity.
  - exact H.
Defined.

End EsapiFacts.
